(** * vpype_cli/operations.py: LineIndex, linemerge and linesort

    A shallow embedding of the spatial-index-backed line merging and line
    sorting code of [vpype_cli/operations.py], and the properties of it
    that the specification states.

    Conventions of the embedding.
    - A point is a Python [complex]; its two coordinates are kept as exact
      rationals ([Qc]), so that [0.5 * (a + b)] is the exact midpoint.
      Rounding of binary floating point is not modelled.
    - A line is a numpy array of complex numbers: a [list complex].
    - Python exceptions are results [Raise e]; [while] loops take a fuel
      argument and answer [OutOfFuel] when it is exhausted.
    - A distance reported by the k-d tree is kept as its square, which is
      what every comparison of the code needs ([<] between two distances,
      and the upper bound of a query). *)

From Stdlib Require Import QArith Qcanon.
From stdpp Require Import base tactics option numbers list sorting.

Local Open Scope Qc_scope.

(** ** Exceptions and results *)

Inductive exn := IndexError | ValueError | TypeError | AttributeError.

Inductive res (A : Type) : Type :=
  | Ok (a : A)
  | Raise (e : exn)
  | OutOfFuel.
Arguments Ok {A} a.
Arguments Raise {A} e.
Arguments OutOfFuel {A}.

Definition res_bind_def {A B : Type} (f : A → res B) (m : res A) : res B :=
  match m with
  | Ok a => f a
  | Raise e => Raise e
  | OutOfFuel => OutOfFuel
  end.

Global Instance res_ret : MRet res := @Ok.
Global Instance res_bind : MBind res := @res_bind_def.
Global Instance res_fmap : FMap res := λ A B f m, res_bind_def (λ a, Ok (f a)) m.

(** An optional value that Python would have found, or the exception it
    raises otherwise. *)
Definition orelse {A : Type} (o : option A) (e : exn) : res A :=
  match o with
  | Some a => Ok a
  | None => Raise e
  end.

(** [mapM f l]: a list comprehension whose body may raise. *)
Fixpoint mapM {A B : Type} (f : A → res B) (l : list A) : res (list B) :=
  match l with
  | [] => Ok []
  | a :: l' => b ← f a; bs ← mapM f l'; Ok (b :: bs)
  end.

(** ** Points and lines *)

Record complex := Complex { real : Qc; imag : Qc }.

Definition cadd (a b : complex) : complex :=
  Complex (real a + real b) (imag a + imag b).

(** [r * a] for a real [r]. *)
Definition cscale (r : Qc) (a : complex) : complex :=
  Complex (r * real a) (r * imag a).

Definition half : Qc := Q2Qc (1 # 2).

Definition line := list complex.

(** [line[0]] and [line[-1]]; both raise [IndexError] on an empty array. *)
Definition line_first (l : line) : res complex := orelse (head l) IndexError.
Definition line_last (l : line) : res complex := orelse (last l) IndexError.

(** [np.flip(line)] on a one-dimensional array. *)
Definition flip (l : line) : line := reverse l.

(** ** The k-d tree of scipy

    [scipy.spatial.cKDTree] is an external library.  The tree is modelled
    by the points it was built from, and a query by its documented result:
    the [k] nearest points that lie within the upper bound, by increasing
    distance, padded to length [k] with entries of infinite distance and
    index [n], the number of points.  As in scipy the bound is exclusive:
    a point is reported when its distance is strictly smaller than
    [distance_upper_bound].  Among points at the same distance the model
    reports the smaller index first. *)

Inductive dist := Fin (d2 : Qc) | Inf.

Definition isinf (d : dist) : bool :=
  match d with Fin _ => false | Inf => true end.

Record KDTree := { kd_data : list complex }.

(** The constructor rejects data that is not two-dimensional, which is what
    [np.array] makes of an empty list of points. *)
Definition KDTree_new (data : list complex) : res KDTree :=
  match data with
  | [] => Raise ValueError
  | _ => Ok {| kd_data := data |}
  end.

Definition sq (x : Qc) : Qc := x * x.

(** The squared Euclidean distance between two points. *)
Definition dist2 (a b : complex) : Qc :=
  sq (real a - real b) + sq (imag a - imag b).

(** [upper] is [None] for the default bound, infinity, and a non-negative
    distance otherwise; scipy compares the squares as well. *)
Definition within (upper : option Qc) (d2 : Qc) : bool :=
  match upper with
  | None => true
  | Some u => bool_decide (d2 < sq u)
  end.

Definition by_dist (a b : Qc * nat) : Prop := a.1 ≤ b.1.
Global Instance by_dist_dec : RelDecision by_dist.
Proof. intros a b. unfold by_dist. apply _. Defined.

Definition hits (t : KDTree) (p : complex) (upper : option Qc) : list (Qc * nat) :=
  merge_sort by_dist
    (filter (λ e, Is_true (within upper e.1))
       (imap (λ i x, (dist2 x p, i)) (kd_data t))).

Definition KDTree_query (t : KDTree) (p : complex) (k : nat) (upper : option Qc)
    : list (dist * nat) :=
  let found := take k (hits t p upper) in
  ((λ e : Qc * nat, (Fin e.1, e.2)) <$> found)
    ++ replicate (k - length found) (Inf, length (kd_data t)).

Definition pt (x y : Q) : complex := Complex (Q2Qc x) (Q2Qc y).

(** ** LineIndex *)

Record LineIndex := {
  lines : list line;
  reverse_index : bool;          (* [self.reverse] *)
  available : list bool;
  index : KDTree;
  rindex : option KDTree;        (* set only when [self.reverse] *)
}.

(** [np.count_nonzero] and [np.argmax] on a boolean array.  [argmax] is
    the position of the first [True], and 0 when there is none. *)
Fixpoint count_nonzero (l : list bool) : nat :=
  match l with
  | [] => 0
  | b :: l' => (if b then 1 else 0) + count_nonzero l'
  end.

Fixpoint argmax (l : list bool) : nat :=
  match l with
  | [] => 0
  | true :: _ => 0
  | false :: l' => if existsb id l' then S (argmax l') else 0
  end.

Definition _make_index (ls : list line) (rev : bool) : res LineIndex :=
  starts ← mapM line_first ls;
  idx ← KDTree_new starts;
  ridx ← (if rev then ends ← mapM line_last ls; t ← KDTree_new ends; Ok (Some t)
          else Ok None);
  Ok {| lines := ls; reverse_index := rev;
        available := replicate (length ls) true;
        index := idx; rindex := ridx |}.

(** [LineIndex(lines, reverse)] *)
Definition LineIndex_init (ls : list line) (rev : bool) : res LineIndex :=
  _make_index ls rev.

(** [[line for idx, line in enumerate(self.lines) if self.available[idx]]] *)
Fixpoint select (ls : list line) (av : list bool) : res (list line) :=
  match ls, av with
  | [], _ => Ok []
  | _ :: _, [] => Raise IndexError
  | l :: ls', a :: av' => rest ← select ls' av'; Ok (if a then l :: rest else rest)
  end.

Definition _reindex (s : LineIndex) : res LineIndex :=
  ls ← select (lines s) (available s);
  _make_index ls (reverse_index s).

(** [__len__] *)
Definition len (s : LineIndex) : nat := count_nonzero (available s).

Definition set_unavailable (s : LineIndex) (idx : nat) : LineIndex :=
  {| lines := lines s; reverse_index := reverse_index s;
     available := <[idx := false]> (available s);
     index := index s; rindex := rindex s |}.

Definition pop_front (s : LineIndex) : res (option line * LineIndex) :=
  if (len s =? 0)%nat then Ok (None, s)
  else
    let idx := argmax (available s) in
    l ← orelse (lines s !! idx) IndexError;
    Ok (Some l, set_unavailable s idx).

Definition pop (s : LineIndex) (idx : nat) : res (option line * LineIndex) :=
  a ← orelse (available s !! idx) IndexError;
  if negb a then Ok (None, s)
  else
    l ← orelse (lines s !! idx) IndexError;
    Ok (Some l, set_unavailable s idx).

(** The entries of a query result at finite distance:
    [idxs[not_inf]] paired with [dists[not_inf]]. *)
Fixpoint finite (r : list (dist * nat)) : list (Qc * nat) :=
  match r with
  | [] => []
  | (Fin d, i) :: r' => (d, i) :: finite r'
  | (Inf, _) :: r' => finite r'
  end.

(** [self.available[idxs]] for an array of indices. *)
Definition take_available (s : LineIndex) (idxs : list nat) : res (list bool) :=
  mapM (λ i, orelse (available s !! i) IndexError) idxs.

(** Returns [(reindex, idx, dist)]. *)
Definition _find_nearest_within_in_index
    (s : LineIndex) (p : complex) (max_dist : Qc) (t : KDTree)
    : res (bool * option nat * Qc) :=
  let r := KDTree_query t p 50 (Some max_dist) in
  let not_inf := (λ e : dist * nat, negb (isinf e.1)) <$> r in
  candidates ← take_available s ((finite r).*2);
  if forallb id not_inf && forallb negb candidates then Ok (true, None, 0)
  else if existsb id candidates then
    let i := argmax candidates in
    e ← orelse (finite r !! i) IndexError;
    Ok (false, Some e.2, e.1)
  else Ok (false, None, 0).

(** The [while True] loop of [find_nearest_within]; it leaves with the
    values of [idx], [dist], [ridx] and [rdist]. *)
Fixpoint find_nearest_within_loop (fuel : nat) (s : LineIndex) (p : complex)
    (max_dist : Qc) : res (option nat * Qc * option nat * Qc * LineIndex) :=
  match fuel with
  | O => OutOfFuel
  | S fuel' =>
    '(reindex, idx, dist) ← _find_nearest_within_in_index s p max_dist (index s);
    if reindex : bool then s' ← _reindex s; find_nearest_within_loop fuel' s' p max_dist
    else if reverse_index s then
      t ← orelse (rindex s) AttributeError;
      '(reindex, ridx, rdist) ← _find_nearest_within_in_index s p max_dist t;
      if reindex : bool then s' ← _reindex s; find_nearest_within_loop fuel' s' p max_dist
      else Ok (idx, dist, ridx, rdist, s)
    else Ok (idx, dist, None, 0, s)
  end.

Definition find_nearest_within (fuel : nat) (s : LineIndex) (p : complex)
    (max_dist : Qc) : res (option nat * bool * LineIndex) :=
  '(idx, dist, ridx, rdist, s') ← find_nearest_within_loop fuel s p max_dist;
  if reverse_index s' then
    match idx, ridx with
    | None, None => Ok (None, false, s')
    | Some _, None => Ok (idx, false, s')
    | None, Some _ => Ok (ridx, true, s')
    | Some _, Some _ =>
        if bool_decide (rdist < dist) then Ok (ridx, true, s') else Ok (idx, false, s')
    end
  else Ok (idx, false, s').

(** Returns [(idx, dist)]. *)
Fixpoint first_available (s : LineIndex) (r : list (dist * nat)) : res (option nat * Qc) :=
  match r with
  | [] => Ok (None, 0)
  | (Inf, _) :: r' => first_available s r'
  | (Fin d, i) :: r' =>
      a ← orelse (available s !! i) IndexError;
      if a : bool then Ok (Some i, d) else first_available s r'
  end.

Definition _find_nearest_in_index (s : LineIndex) (p : complex) (t : KDTree)
    : res (option nat * Qc) :=
  first_available s (KDTree_query t p 100 None).

Fixpoint find_nearest_loop (fuel : nat) (s : LineIndex) (p : complex)
    : res (option nat * Qc * option nat * Qc * LineIndex) :=
  match fuel with
  | O => OutOfFuel
  | S fuel' =>
    '(idx, dist) ← _find_nearest_in_index s p (index s);
    if reverse_index s then
      t ← orelse (rindex s) AttributeError;
      '(ridx, rdist) ← _find_nearest_in_index s p t;
      match ridx, idx with
      | Some _, Some _ => Ok (idx, dist, ridx, rdist, s)
      | _, _ => s' ← _reindex s; find_nearest_loop fuel' s' p
      end
    else
      match idx with
      | Some _ => Ok (idx, dist, None, 0, s)
      | None => s' ← _reindex s; find_nearest_loop fuel' s' p
      end
  end.

Definition find_nearest (fuel : nat) (s : LineIndex) (p : complex)
    : res (option nat * bool * LineIndex) :=
  '(idx, dist, ridx, rdist, s') ← find_nearest_loop fuel s p;
  if reverse_index s' then
    if bool_decide (rdist < dist) then Ok (ridx, true, s') else Ok (idx, false, s')
  else Ok (idx, false, s').

(** ** LineCollection *)

(** Modelled from the spec: [vpype.LineCollection], whose class is not part
    of the sources at hand, is the PolylineCollection of the specification,
    an ordered sequence of polylines; [len], iteration, indexing, slicing
    and [append] are those of a sequence. *)
Definition LineCollection := list line.

(** The number of points of a collection. *)
Definition point_count (c : LineCollection) : nat := sum_list_with length c.

(** ** linemerge *)

(** [np.hstack([line[:-1], 0.5 * (line[-1] + new_line[0]), new_line[1:]])] *)
Definition splice (l new_line : line) : res line :=
  e ← line_last l;
  b ← line_first new_line;
  Ok (take (length l - 1) l ++ [cscale half (cadd e b)] ++ drop 1 new_line).

(** The end of a turn of the inner loop, once a line was found:
    [new_line = index.pop(idx)], flipped [if reverse], is spliced onto the
    chain. *)
Definition attach (s : LineIndex) (l : line) (idx : nat) (rev : bool)
    : res (line * LineIndex) :=
  '(popped, s') ← pop s idx;
  new_line ← orelse popped TypeError;
  let new_line := if rev then flip new_line else new_line in
  l' ← splice l new_line;
  Ok (l', s').

(** One turn of the inner [while True] loop: the chain has been extended
    and the loop goes on, or nothing was found and the loop is left. *)
Inductive turn := Extended (l : line) | Done (l : line).

Definition extend_turn (fuel : nat) (s : LineIndex) (l : line) (tolerance : Qc)
    (no_flip : bool) : res (turn * LineIndex) :=
  e ← line_last l;
  '(idx, rev, s1) ← find_nearest_within fuel s e tolerance;
  '(idx, rev, s2, l2) ←
     (if bool_decide (idx = None) && negb no_flip then
        b ← line_first l;
        '(idx', rev', s') ← find_nearest_within fuel s1 b tolerance;
        Ok (idx', rev', s', flip l)
      else Ok (idx, rev, s1, l));
  match idx with
  | None => Ok (Done l2, s2)
  | Some i => '(l3, s3) ← attach s2 l2 i rev; Ok (Extended l3, s3)
  end.

(** The inner loop; [merges] counts the executions of its last statement,
    the splice of one more line onto the chain. *)
Fixpoint extend (fuel steps : nat) (s : LineIndex) (l : line) (tolerance : Qc)
    (no_flip : bool) (merges : nat) : res (line * nat * LineIndex) :=
  match steps with
  | O => OutOfFuel
  | S steps' =>
      '(t, s') ← extend_turn fuel s l tolerance no_flip;
      match t with
      | Done l' => Ok (l', merges, s')
      | Extended l' => extend fuel steps' s' l' tolerance no_flip (S merges)
      end
  end.

(** The outer loop, [while len(index) > 0]. *)
Fixpoint merge_loop (fuel steps : nat) (s : LineIndex) (tolerance : Qc)
    (no_flip : bool) (new_lines : LineCollection) (merges : nat)
    : res (LineCollection * nat) :=
  match steps with
  | O => OutOfFuel
  | S steps' =>
      if (0 <? len s)%nat then
        '(front, s1) ← pop_front s;
        l ← orelse front TypeError;
        '(l', merges', s2) ← extend fuel fuel s1 l tolerance no_flip merges;
        merge_loop fuel steps' s2 tolerance no_flip (new_lines ++ [l']) merges'
      else Ok (new_lines, merges)
  end.

(** [linemerge], with the number of merges it performed. *)
Definition linemerge_counted (fuel : nat) (ls : LineCollection) (tolerance : Qc)
    (no_flip : bool) : res (LineCollection * nat) :=
  if (length ls <? 2)%nat then Ok (ls, 0%nat)
  else
    s ← LineIndex_init ls (negb no_flip);
    merge_loop fuel fuel s tolerance no_flip [] 0.

(** Every loop of a run on [ls] leaves before [fuel_for ls] turns. *)
Definition fuel_for (ls : LineCollection) : nat := length ls + 2.

Definition linemerge (ls : LineCollection) (tolerance : Qc) (no_flip : bool)
    : res LineCollection :=
  fst <$> linemerge_counted (fuel_for ls) ls tolerance no_flip.

(** ** linesort *)

Fixpoint sort_loop (fuel steps : nat) (s : LineIndex) (new_lines : LineCollection)
    : res LineCollection :=
  match steps with
  | O => OutOfFuel
  | S steps' =>
      if (0 <? len s)%nat then
        cur ← orelse (last new_lines) IndexError;
        e ← line_last cur;
        '(idx, rev, s1) ← find_nearest fuel s e;
        i ← orelse idx TypeError;
        '(popped, s2) ← pop s1 i;
        l ← orelse popped TypeError;
        let l := if rev : bool then flip l else l in
        sort_loop fuel steps' s2 (new_lines ++ [l])
      else Ok new_lines
  end.

Definition linesort_fuel (fuel : nat) (ls : LineCollection) (no_flip : bool)
    : res LineCollection :=
  match ls with
  | [] | [_] => Ok ls
  | l0 :: rest =>
      s ← LineIndex_init rest (negb no_flip);
      sort_loop fuel fuel s [l0]
  end.

Definition linesort (ls : LineCollection) (no_flip : bool) : res LineCollection :=
  linesort_fuel (fuel_for ls) ls no_flip.

(** ** Writing points and lines *)

Definition q (n : Z) (d : positive) : Qc := Q2Qc (n # d).
Definition seg (x1 y1 x2 y2 : Qc) : line := [Complex x1 y1; Complex x2 y2].

(** ** multipass *)

(** [line[-2::-1]]: the points before the last one, from the last of them
    back to the first. *)
Definition backwards (l : line) : line := reverse (take (length l - 1) l).

(** What pass [i] adds to a line:
    [line[-2::-1] if i % 2 == 0 else line[1:]]. *)
Definition pass (l : line) (i : nat) : line :=
  if Nat.even i then backwards l else drop 1 l.

(** [np.hstack([line] + [... for i in range(count - 1)])] *)
Definition multipass_line (count : Z) (l : line) : line :=
  l ++ mjoin (pass l <$> seq 0 (Z.to_nat (count - 1))).

Definition multipass (ls : LineCollection) (count : Z) : LineCollection :=
  if (count <? 2)%Z then ls else multipass_line count <$> ls.

(** ** splitall *)

(** [[line[i : i + 2] for i in range(len(line) - 1)]] *)
Definition segments (l : line) : list line :=
  (λ i, take 2 (drop i l)) <$> seq 0 (length l - 1).

Definition splitall (ls : LineCollection) : LineCollection := ls ≫= segments.

(** * Notions used to state the properties *)

Local Open Scope nat_scope.

(** ** Deciding equality of results *)

Global Instance complex_eq_dec : EqDecision complex.
Proof. solve_decision. Defined.
Global Instance exn_eq_dec : EqDecision exn.
Proof. solve_decision. Defined.
Global Instance res_eq_dec {A : Type} `{!EqDecision A} : EqDecision (res A).
Proof. solve_decision. Defined.

(** ** The lines still to be consumed *)

(** The lines of the index whose flag is set, in their order. *)
Fixpoint pending_of (ls : list line) (av : list bool) : list line :=
  match ls, av with
  | l :: ls', a :: av' => if a then l :: pending_of ls' av' else pending_of ls' av'
  | _, _ => []
  end.

Definition pending (s : LineIndex) : list line := pending_of (lines s) (available s).

(** ** States of the index *)

(** The state right after [_make_index]: every line is available and the
    trees hold one point per line. *)
Record fresh (s : LineIndex) : Prop := {
  fresh_available : available s = replicate (length (lines s)) true;
  fresh_index : length (kd_data (index s)) = length (lines s);
  fresh_rindex : ∀ t, rindex s = Some t → length (kd_data t) = length (lines s);
  fresh_nonempty : lines s ≠ [];
}.

(** What a query may do to the index: rebuild it, which keeps the lines
    still to be consumed and the reversal flag. *)
Record stable (s s' : LineIndex) : Prop := {
  stable_reverse : reverse_index s' = reverse_index s;
  stable_pending : pending s' = pending s;
  stable_len : len s' ≤ len s;
}.

(** The arrays of the index go together: one flag and, in each tree, one
    point per line.  Every index that the code builds and uses is so. *)
Record consistent (s : LineIndex) : Prop := {
  consistent_available : length (available s) = length (lines s);
  consistent_index : length (kd_data (index s)) = length (lines s);
  consistent_rindex : ∀ t, rindex s = Some t → length (kd_data t) = length (lines s);
}.

(** The trees hold the first points and, when the index keeps them, the
    last points of the lines, one per line.  Every index that the code
    builds and uses is so. *)
Record synced (s : LineIndex) : Prop := {
  synced_available : length (available s) = length (lines s);
  synced_index : mapM line_first (lines s) = Ok (kd_data (index s));
  synced_rindex :
    reverse_index s = true →
    ∃ t, rindex s = Some t ∧ mapM line_last (lines s) = Ok (kd_data t);
}.

(** The point of a line that a query matched: its last point when the
    query answers [reverse], its first point otherwise. *)
Definition matched (rev : bool) (l : line) : res complex :=
  if rev then line_last l else line_first l.

(** [e] is a point by which the index [s] can match the line [l]. *)
Definition matchable (s : LineIndex) (l : line) (e : complex) : Prop :=
  line_first l = Ok e ∨ (reverse_index s = true ∧ line_last l = Ok e).

(** ** Turns and runs of the merging loop *)

(** What one turn does.  It leaves the loop with the chain as it was or,
    when flipping is allowed, flipped; or it takes one available line [nl]
    out of the index and splices it, as it is or flipped, onto the chain,
    itself as it was or flipped. *)
Inductive turn_spec (s : LineIndex) (l : line) (no_flip : bool)
    : turn → LineIndex → Prop :=
  | turn_done s' l' :
      stable s s' →
      (l' = l ∨ (no_flip = false ∧ l' = flip l)) →
      turn_spec s l no_flip (Done l') s'
  | turn_extended s' l2 nl nl' l' :
      reverse_index s' = reverse_index s →
      pending s ≡ₚ nl :: pending s' →
      len s' < len s →
      (l2 = l ∨ (no_flip = false ∧ l2 = flip l)) →
      (nl' = nl ∨ (reverse_index s = true ∧ nl' = flip nl)) →
      splice l2 nl' = Ok l' →
      turn_spec s l no_flip (Extended l') s'.

(** The turns of one run of the inner loop, from the seed to the chain it
    emits, with the counter of merges. *)
Inductive chain_run (no_flip : bool)
    : LineIndex → line → nat → LineIndex → line → nat → Prop :=
  | chain_run_done s l m s' l' :
      turn_spec s l no_flip (Done l') s' →
      chain_run no_flip s l m s' l' m
  | chain_run_step s l m s1 l1 s' l' m' :
      turn_spec s l no_flip (Extended l1) s1 →
      chain_run no_flip s1 l1 (S m) s' l' m' →
      chain_run no_flip s l m s' l' m'.

(** The lines that can be made of lines of [input] taken as they are:
    a line of [input], or such a line spliced onto the end of a chain. *)
Inductive forward_chain (input : LineCollection) : line → Prop :=
  | forward_seed l : l ∈ input → forward_chain input l
  | forward_splice c l c' :
      forward_chain input c → l ∈ input → splice c l = Ok c' →
      forward_chain input c'.

(** The lines of [g] spliced one after the other onto the chain [c]. *)
Fixpoint join_onto (c : line) (g : list line) : res line :=
  match g with
  | [] => Ok c
  | l :: g' => c' ← splice c l; join_onto c' g'
  end.

(** [rest] is in the order of a greedy tour from the point [cur]: each
    line begins at least as near to the end of the line before it (to
    [cur], for the first) as any point by which it or a line after it
    could be matched. *)
Inductive greedy (flip_allowed : bool) : complex → list line → Prop :=
  | greedy_nil cur : greedy flip_allowed cur []
  | greedy_cons cur b rest sb eb :
      line_first b = Ok sb → line_last b = Ok eb →
      (∀ c e, c ∈ b :: rest →
         line_first c = Ok e ∨ (flip_allowed = true ∧ line_last c = Ok e) →
         (dist2 sb cur ≤ dist2 e cur)%Qc) →
      greedy flip_allowed eb rest →
      greedy flip_allowed cur (b :: rest).

(** The chain [c'] is the chain [c] with the lines of [g] spliced onto it
    one after the other, each beginning strictly within the tolerance of
    the end that the chain had then. *)
Inductive joined (tol : Qc) : line → list line → line → Prop :=
  | joined_nil c : joined tol c [] c
  | joined_cons c l g c1 c' e b :
      line_last c = Ok e → line_first l = Ok b → (dist2 b e < sq tol)%Qc →
      splice c l = Ok c1 → joined tol c1 g c' →
      joined tol c (l :: g) c'.

(** The chains that merging without flipping makes of the lines [pend]:
    the first line is the seed of the first chain, which takes the lines
    [g] among the others and ends where no line that is left begins
    within the tolerance; the lines that are left make the other chains. *)
Inductive merged (tol : Qc) : list line → list line → Prop :=
  | merged_nil : merged tol [] []
  | merged_chain seed pend g c left chains :
      pend ≡ₚ g ++ left → joined tol seed g c →
      (∀ e l b, line_last c = Ok e → l ∈ left → line_first l = Ok b →
                ¬ (dist2 b e < sq tol)%Qc) →
      merged tol left chains →
      merged tol (seed :: pend) (c :: chains).

(** A result that is no other exception than [ValueError]. *)
Definition value_error_only {A : Type} (r : res A) : Prop :=
  ∀ e, r = Raise e → e = ValueError.

(** ** Sequences of calls on an index *)

(** The calls a client makes on an index. *)
Inductive op :=
  | Remove (idx : nat)
  | RemoveFront
  | Within (p : complex) (max_dist : Qc)
  | Nearest (p : complex).

(** One call, with the id it answered when it is a query that found one. *)
Definition perform (fuel : nat) (s : LineIndex) (o : op) : res (option nat * LineIndex) :=
  match o with
  | Remove idx => '(_, s') ← pop s idx; Ok (None, s')
  | RemoveFront => '(_, s') ← pop_front s; Ok (None, s')
  | Within p d => '(idx, _, s') ← find_nearest_within fuel s p d; Ok (idx, s')
  | Nearest p => '(idx, _, s') ← find_nearest fuel s p; Ok (idx, s')
  end.

Fixpoint perform_all (fuel : nat) (s : LineIndex) (ops : list op) : res LineIndex :=
  match ops with
  | [] => Ok s
  | o :: ops' => '(_, s') ← perform fuel s o; perform_all fuel s' ops'
  end.

(** ** Inputs of the scenarios *)

(** The two polylines of the merge scenario, [(0,0)-(1,0)] and
    [(1.02,0)-(2,0)], and the tolerance 0.05. *)
Definition scenario : LineCollection :=
  [seg 0 0 1 0; seg (q 102 100) 0 (q 2 1) 0].
Definition scenario_tolerance : Qc := q 5 100.
Definition scenario_merged : line :=
  [Complex 0 0; Complex (q 101 100) 0; Complex (q 2 1) 0].

(** Two unit-length polylines whose facing endpoints, [(1,0)] and
    [(1.5,0)], are 0.5 apart. *)
Definition apart_half : LineCollection :=
  [seg 0 0 1 0; seg (q 3 2) 0 (q 5 2) 0].

(** An index over [ls] in which the entries flagged in [av] are available. *)
Definition index_with (ls : list line) (rev : bool) (av : list bool) : LineIndex :=
  match LineIndex_init ls rev with
  | Ok s => {| lines := lines s; reverse_index := reverse_index s; available := av;
               index := index s; rindex := rindex s |}
  | _ => {| lines := []; reverse_index := rev; available := [];
            index := {| kd_data := [] |}; rindex := None |}
  end.

(** The index of the scenario once both lines were removed, and once only
    the first was. *)
Definition emptied : LineIndex := index_with scenario false [false; false].
Definition first_removed : LineIndex := index_with scenario false [false; true].



Definition scenario_index : LineIndex := index_with scenario true [true; true].
Definition scenario_calls : list op :=
  [Within (Complex 1 0) scenario_tolerance; Remove 0; Nearest (Complex 1 0)].

(** A line that starts at [(0,0)] and a line that ends at [(2,0)], both at
    distance 1 of the query point [(1,0)]. *)
Definition tie_index : LineIndex :=
  index_with [seg 0 0 (q 5 1) (q 5 1); seg (q 7 1) (q 7 1) (q 2 1) 0] true [true; true].
Definition tie_ends : KDTree := {| kd_data := [Complex (q 5 1) (q 5 1); Complex (q 2 1) 0] |}.

(** The three polylines of the sort scenario: A, B far away, C next to A. *)
Definition sort_scenario : LineCollection :=
  [seg 0 0 0 1; seg (q 5 1) (q 5 1) (q 5 1) (q 6 1); seg 0 (q 2 1) 0 (q 3 1)].


(** * Properties *)

Example query_example :
  (λ r, (isinf r.1, r.2)) <$>
    KDTree_query {| kd_data := [pt 0 0; pt 3 0; pt 1 0] |} (pt 0 0) 4 (Some (Q2Qc 2))
  = [(false, 0%nat); (false, 2%nat); (true, 3%nat); (true, 3%nat)].
Proof. vm_compute. reflexivity. Qed.

(** ** Results *)

Lemma bind_Ok {A B : Type} (f : A → res B) (m : res A) (b : B) :
  m ≫= f = Ok b ↔ ∃ a, m = Ok a ∧ f a = Ok b.
Proof.
  destruct m as [a| |]; simpl; split.
  - intros H. exists a. auto.
  - intros (a' & Ha & H). by injection Ha as ->.
  - discriminate.
  - intros (a & Ha & _). discriminate.
  - discriminate.
  - intros (a & Ha & _). discriminate.
Qed.

Lemma bind_fuel {A B : Type} (f : A → res B) (m : res A) :
  m ≠ OutOfFuel → (∀ a, m = Ok a → f a ≠ OutOfFuel) → m ≫= f ≠ OutOfFuel.
Proof. destruct m as [a| |]; simpl; intros Hm Hf; [by apply Hf | done | done]. Qed.

Lemma orelse_Ok {A : Type} (o : option A) (e : exn) (a : A) :
  orelse o e = Ok a ↔ o = Some a.
Proof. destruct o; simpl; split; intros H; by simplify_eq. Qed.

Lemma orelse_fuel {A : Type} (o : option A) (e : exn) : orelse o e ≠ OutOfFuel.
Proof. by destruct o. Qed.

(** Splits the first binding of a hypothesis [x ← m; k = Ok v]. *)
Ltac bind_inv H :=
  let a := fresh "a" in
  let E := fresh "E" in
  apply bind_Ok in H as (a & E & H).

Lemma mapM_length {A B : Type} (f : A → res B) (l : list A) (bs : list B) :
  mapM f l = Ok bs → length bs = length l.
Proof.
  revert bs. induction l as [|a l IH]; intros bs H; simpl in H.
  - by injection H as <-.
  - bind_inv H. bind_inv H. injection H as <-. simpl. f_equal. by apply IH.
Qed.

Lemma mapM_lookup {A B : Type} (f : A → res B) (l : list A) (bs : list B) (j : nat) (b : B) :
  mapM f l = Ok bs → bs !! j = Some b → ∃ a, l !! j = Some a ∧ f a = Ok b.
Proof.
  revert bs j. induction l as [|a l IH]; intros bs j H Hj; simpl in H.
  - injection H as <-. done.
  - bind_inv H. bind_inv H. injection H as <-.
    destruct j as [|j]; simpl in *.
    + injection Hj as <-. eauto.
    + eauto.
Qed.

Lemma mapM_fuel {A B : Type} (f : A → res B) (l : list A) :
  (∀ a, f a ≠ OutOfFuel) → mapM f l ≠ OutOfFuel.
Proof.
  intros Hf. induction l as [|a l IH]; simpl; [done|].
  apply bind_fuel; [done|]. intros b _. apply bind_fuel; [done|]. done.
Qed.

(** ** Boolean arrays *)

Lemma count_nonzero_replicate (n : nat) : count_nonzero (replicate n true) = n.
Proof. induction n; simpl; congruence. Qed.

Lemma count_nonzero_zero (l : list bool) :
  count_nonzero l = 0%nat → existsb id l = false.
Proof. induction l as [|[] l IH]; simpl; intros H; [done | done | auto]. Qed.

Lemma count_nonzero_pos (l : list bool) :
  count_nonzero l ≠ 0%nat → existsb id l = true.
Proof. induction l as [|[] l IH]; simpl; intros H; [done | done | auto]. Qed.

Lemma argmax_lookup (l : list bool) : existsb id l = true → l !! argmax l = Some true.
Proof.
  induction l as [|[] l IH]; simpl; intros H; [done | done |].
  rewrite H. simpl. auto.
Qed.

Lemma count_nonzero_remove (l : list bool) (i : nat) :
  l !! i = Some true → count_nonzero l = S (count_nonzero (<[i := false]> l)).
Proof.
  revert i. induction l as [|b l IH]; intros [|i] H; simpl in *; try done.
  - by injection H as ->.
  - rewrite (IH i H). destruct b; simpl; lia.
Qed.

Lemma lookup_count_nonzero (l : list bool) (i : nat) :
  l !! i = Some true → count_nonzero l ≠ 0%nat.
Proof. intros H. rewrite (count_nonzero_remove l i H). lia. Qed.

(** ** The lines still to be consumed *)

Lemma select_pending (ls : list line) (av : list bool) (r : list line) :
  select ls av = Ok r → r = pending_of ls av.
Proof.
  revert av r. induction ls as [|l ls IH]; intros [|a av] r H; simpl in H; try done.
  - by injection H as <-.
  - by injection H as <-.
  - bind_inv H. injection H as <-. simpl. rewrite (IH _ _ E). done.
Qed.

Lemma select_fuel (ls : list line) (av : list bool) : select ls av ≠ OutOfFuel.
Proof.
  revert av. induction ls as [|l ls IH]; intros [|a av]; simpl; try done.
  apply bind_fuel; [apply IH | done].
Qed.

Lemma pending_of_replicate (ls : list line) :
  pending_of ls (replicate (length ls) true) = ls.
Proof. induction ls; simpl; congruence. Qed.

Lemma pending_of_length (ls : list line) (av : list bool) :
  length (pending_of ls av) ≤ count_nonzero av.
Proof.
  revert av. induction ls as [|l ls IH]; intros [|[] av]; simpl; try lia.
  - specialize (IH av). lia.
  - apply IH.
Qed.

Lemma pending_of_length_flags (ls : list line) (av : list bool) :
  length av ≤ length ls → length (pending_of ls av) = count_nonzero av.
Proof.
  revert av. induction ls as [|l ls IH]; intros [|a av] H; simpl in *; try done.
  - lia.
  - destruct a; simpl; rewrite IH by lia; done.
Qed.



Lemma pending_of_remove (ls : list line) (av : list bool) (i : nat) (l : line) :
  ls !! i = Some l → av !! i = Some true →
  pending_of ls av ≡ₚ l :: pending_of ls (<[i := false]> av).
Proof.
  revert av i. induction ls as [|l0 ls IH]; intros [|a av] [|i] Hl Ha; simpl in *; try done.
  - injection Hl as ->. injection Ha as ->. done.
  - destruct a.
    + rewrite (IH av i Hl Ha). apply Permutation_swap.
    + by apply IH.
Qed.

Lemma pending_of_elem (ls : list line) (av : list bool) (l : line) :
  l ∈ pending_of ls av → l ∈ ls.
Proof.
  revert av. induction ls as [|l0 ls IH]; intros [|[] av]; simpl; try by inversion 1.
  - intros [->|H]%elem_of_cons; [left | right; eauto].
  - intros H. right. eauto.
Qed.

(** ** Queries of the tree *)

Lemma hits_perm (t : KDTree) (p : complex) (upper : option Qc) :
  hits t p upper ≡ₚ
    filter (λ e : Qc * nat, Is_true (within upper e.1))
      (imap (λ i x, (dist2 x p, i)) (kd_data t)).
Proof. unfold hits. apply merge_sort_Permutation. Qed.

Lemma hits_bound (t : KDTree) (p : complex) (upper : option Qc) (e : Qc * nat) :
  e ∈ hits t p upper →
  e.2 < length (kd_data t) ∧ Is_true (within upper e.1) ∧
  ∃ x, kd_data t !! e.2 = Some x ∧ e.1 = dist2 x p.
Proof.
  rewrite hits_perm. intros [Hw Hin]%list_elem_of_filter.
  apply elem_of_lookup_imap in Hin as (i & x & -> & Hx). simpl.
  split; [by eapply lookup_lt_Some | eauto].
Qed.



Lemma finite_query (t : KDTree) (p : complex) (k : nat) (upper : option Qc) :
  finite (KDTree_query t p k upper) = take k (hits t p upper).
Proof.
  unfold KDTree_query. generalize (take k (hits t p upper)) as found.
  generalize (length (kd_data t)) as n. intros n found.
  generalize (k - length found) as m.
  induction found as [|[d i] found IH]; intros m; simpl.
  - induction m; simpl; auto.
  - by rewrite IH.
Qed.

Lemma query_length (t : KDTree) (p : complex) (k : nat) (upper : option Qc) :
  length (KDTree_query t p k upper) = k.
Proof.
  unfold KDTree_query. rewrite length_app, length_fmap, length_replicate.
  pose proof (length_take_le (hits t p upper) k). rewrite length_take. lia.
Qed.

Lemma finite_length (r : list (dist * nat)) :
  forallb id ((λ e : dist * nat, negb (isinf e.1)) <$> r) = true →
  length (finite r) = length r.
Proof.
  induction r as [|[[d|] i] r IH]; simpl; intros H; [done | | done].
  f_equal. auto.
Qed.

Lemma finite_query_elem (t : KDTree) (p : complex) (k : nat) (upper : option Qc)
    (e : Qc * nat) :
  e ∈ finite (KDTree_query t p k upper) → e.2 < length (kd_data t).
Proof.
  rewrite finite_query. intros (i & Hi & _)%elem_of_take.
  apply list_elem_of_lookup_2 in Hi. by apply hits_bound in Hi as [? _].
Qed.

(** ** Building and rebuilding the index *)

Lemma KDTree_new_Ok (data : list complex) (t : KDTree) :
  KDTree_new data = Ok t → kd_data t = data ∧ data ≠ [].
Proof. destruct data; simpl; intros H; [done|]. by injection H as <-. Qed.

Lemma make_index_Ok (ls : list line) (rev : bool) (s : LineIndex) :
  _make_index ls rev = Ok s → lines s = ls ∧ reverse_index s = rev ∧ fresh s.
Proof.
  unfold _make_index. intros H.
  apply bind_Ok in H as (starts & Hst & H).
  apply bind_Ok in H as (idx & Hidx & H).
  apply bind_Ok in H as (ridx & Hridx & H).
  injection H as <-. simpl. split; [done|]. split; [done|].
  apply KDTree_new_Ok in Hidx as [Hd Hne].
  apply mapM_length in Hst.
  split; simpl.
  - done.
  - by rewrite Hd.
  - intros t ->. destruct rev; [|done].
    apply bind_Ok in Hridx as (ends & Hen & H).
    apply bind_Ok in H as (t' & Ht' & H). injection H as ->.
    apply KDTree_new_Ok in Ht' as [-> _]. by apply mapM_length in Hen.
  - intros ->. destruct starts; done.
Qed.

Lemma KDTree_new_fuel (data : list complex) : KDTree_new data ≠ OutOfFuel.
Proof. by destruct data. Qed.

Lemma make_index_fuel (ls : list line) (rev : bool) : _make_index ls rev ≠ OutOfFuel.
Proof.
  unfold _make_index.
  apply bind_fuel; [apply mapM_fuel; intros; apply orelse_fuel|]. intros starts _.
  apply bind_fuel; [apply KDTree_new_fuel|]. intros idx _.
  apply bind_fuel; [|done].
  destruct rev; [|done].
  apply bind_fuel; [apply mapM_fuel; intros; apply orelse_fuel|]. intros ends _.
  apply bind_fuel; [apply KDTree_new_fuel|]. done.
Qed.

Lemma fresh_pending (s : LineIndex) : fresh s → pending s = lines s.
Proof. intros [Ha _ _ _]. unfold pending. rewrite Ha. apply pending_of_replicate. Qed.

Lemma fresh_len (s : LineIndex) : fresh s → len s = length (lines s).
Proof. intros [Ha _ _ _]. unfold len. rewrite Ha. apply count_nonzero_replicate. Qed.

(** A rebuild keeps the lines that were available, makes all of them
    available in the new numbering, and drops the others. *)
Lemma reindex_Ok (s s' : LineIndex) :
  _reindex s = Ok s' →
  lines s' = pending s ∧ reverse_index s' = reverse_index s ∧ fresh s'.
Proof.
  unfold _reindex. intros H. apply bind_Ok in H as (ls & Hls & H).
  apply select_pending in Hls as ->. by apply make_index_Ok in H.
Qed.

Lemma reindex_pending (s s' : LineIndex) : _reindex s = Ok s' → pending s' = pending s.
Proof. intros (Hl & _ & Hf)%reindex_Ok. by rewrite fresh_pending. Qed.

Lemma reindex_len (s s' : LineIndex) : _reindex s = Ok s' → len s' ≤ len s.
Proof.
  intros (Hl & _ & Hf)%reindex_Ok. rewrite fresh_len, Hl by done.
  apply pending_of_length.
Qed.

Lemma reindex_fuel (s : LineIndex) : _reindex s ≠ OutOfFuel.
Proof.
  unfold _reindex. apply bind_fuel; [apply select_fuel|].
  intros ls _. apply make_index_fuel.
Qed.

(** ** Removing lines *)

Lemma pop_Some (s s' : LineIndex) (i : nat) (l : line) :
  pop s i = Ok (Some l, s') →
  available s !! i = Some true ∧ lines s !! i = Some l ∧ s' = set_unavailable s i.
Proof.
  unfold pop. intros H. apply bind_Ok in H as (a & Ha%orelse_Ok & H).
  destruct a; simpl in H; [|done].
  apply bind_Ok in H as (l' & Hl%orelse_Ok & H). by simplify_eq.
Qed.

Lemma pop_fuel (s : LineIndex) (i : nat) : pop s i ≠ OutOfFuel.
Proof.
  unfold pop. apply bind_fuel; [apply orelse_fuel|]. intros a _.
  destruct a; simpl; [|done]. apply bind_fuel; [apply orelse_fuel | done].
Qed.

Lemma pop_front_Some (s s' : LineIndex) (l : line) :
  pop_front s = Ok (Some l, s') →
  ∃ i, available s !! i = Some true ∧ lines s !! i = Some l ∧ s' = set_unavailable s i.
Proof.
  unfold pop_front. destruct (len s =? 0) eqn:Hlen; [done|].
  apply Nat.eqb_neq in Hlen. intros H.
  apply bind_Ok in H as (l' & Hl%orelse_Ok & H). simplify_eq.
  exists (argmax (available s)). split; [|done].
  by apply argmax_lookup, count_nonzero_pos.
Qed.

Lemma pop_front_fuel (s : LineIndex) : pop_front s ≠ OutOfFuel.
Proof.
  unfold pop_front. destruct (len s =? 0); [done|].
  apply bind_fuel; [apply orelse_fuel | done].
Qed.

Lemma remove_pending (s : LineIndex) (i : nat) (l : line) :
  available s !! i = Some true → lines s !! i = Some l →
  pending s ≡ₚ l :: pending (set_unavailable s i).
Proof. intros Ha Hl. unfold pending. simpl. by apply pending_of_remove. Qed.

Lemma remove_len (s : LineIndex) (i : nat) :
  available s !! i = Some true → len s = S (len (set_unavailable s i)).
Proof. intros Ha. unfold len. simpl. by apply count_nonzero_remove. Qed.

(** ** Bounded search in one tree *)

Lemma take_available_lookup (s : LineIndex) (idxs : list nat) (bs : list bool)
    (j : nat) (b : bool) :
  take_available s idxs = Ok bs → bs !! j = Some b →
  ∃ i, idxs !! j = Some i ∧ available s !! i = Some b.
Proof.
  intros H Hj. destruct (mapM_lookup _ _ _ _ _ H Hj) as (i & Hi & Hb).
  exists i. split; [done|]. by apply orelse_Ok in Hb.
Qed.

Lemma within_in_index_fuel (s : LineIndex) (p : complex) (d : Qc) (t : KDTree) :
  _find_nearest_within_in_index s p d t ≠ OutOfFuel.
Proof.
  unfold _find_nearest_within_in_index.
  apply bind_fuel; [apply mapM_fuel; intros; apply orelse_fuel|]. intros c _.
  destruct (_ && _); [done|]. destruct (existsb id c); [|done].
  apply bind_fuel; [apply orelse_fuel | done].
Qed.

(** Whatever one tree answers is an available entry, and comes with the
    squared distance from the query point to the point kept for it. *)
Lemma within_in_index_Some (s : LineIndex) (p : complex) (d : Qc) (t : KDTree)
    (r : bool) (i : nat) (di : Qc) :
  _find_nearest_within_in_index s p d t = Ok (r, Some i, di) →
  r = false ∧ available s !! i = Some true ∧
  (di < sq d)%Qc ∧ ∃ x, kd_data t !! i = Some x ∧ di = dist2 x p.
Proof.
  unfold _find_nearest_within_in_index. intros H.
  apply bind_Ok in H as (c & Hc & H).
  destruct (_ && _); [done|].
  destruct (existsb id c) eqn:Hex; [|done].
  apply bind_Ok in H as (e & He%orelse_Ok & H). simplify_eq. split; [done|].
  apply argmax_lookup in Hex.
  destruct (take_available_lookup _ _ _ _ _ Hc Hex) as (i & Hi & Ha).
  rewrite list_lookup_fmap, He in Hi. simpl in Hi. injection Hi as <-.
  split; [done|].
  apply list_elem_of_lookup_2 in He. rewrite finite_query in He.
  apply elem_of_take in He as (j & Hj & _). apply list_elem_of_lookup_2 in Hj.
  apply hits_bound in Hj as (_ & Hw & Hx). split; [|done].
  simpl in Hw. by apply bool_decide_unpack in Hw.
Qed.

Lemma forallb_negb_true (l : list bool) :
  (∀ b, b ∈ l → b = true) → l ≠ [] → forallb negb l = false.
Proof.
  destruct l as [|b l]; [done|]. intros H _. simpl.
  rewrite (H b) by constructor. done.
Qed.

(** Right after a rebuild no search asks for another one. *)
Lemma within_in_index_fresh (s : LineIndex) (p : complex) (d : Qc) (t : KDTree)
    (r : bool) (idx : option nat) (di : Qc) :
  fresh s → length (kd_data t) = length (lines s) →
  _find_nearest_within_in_index s p d t = Ok (r, idx, di) → r = false.
Proof.
  intros Hf Ht. unfold _find_nearest_within_in_index. intros H.
  apply bind_Ok in H as (c & Hc & H).
  destruct (forallb id _) eqn:Hall; simpl in H.
  - rewrite forallb_negb_true in H.
    + destruct (existsb id c); [|by simplify_eq].
      apply bind_Ok in H as (e & _ & H). by simplify_eq.
    + intros b [j Hj]%list_elem_of_lookup_1.
      destruct (take_available_lookup _ _ _ _ _ Hc Hj) as (i & Hi & Ha).
      rewrite (fresh_available s Hf) in Ha.
      apply lookup_replicate in Ha as [-> _]. done.
    + apply mapM_length in Hc. apply finite_length in Hall.
      rewrite length_fmap, Hall, query_length in Hc.
      intros ->. done.
  - destruct (existsb id c); [|by simplify_eq].
    apply bind_Ok in H as (e & _ & H). by simplify_eq.
Qed.

(** ** find_nearest_within *)

Lemma stable_refl (s : LineIndex) : stable s s.
Proof. by split. Qed.

Lemma stable_trans (s1 s2 s3 : LineIndex) : stable s1 s2 → stable s2 s3 → stable s1 s3.
Proof.
  intros [H1 H2 H3] [H4 H5 H6]. split; [congruence | congruence | lia].
Qed.

Lemma reindex_stable (s s' : LineIndex) : _reindex s = Ok s' → stable s s'.
Proof.
  intros H. split.
  - by apply reindex_Ok in H as (_ & ? & _).
  - by apply reindex_pending.
  - by apply reindex_len.
Qed.

Lemma within_loop_Ok (fuel : nat) (s s' : LineIndex) (p : complex) (d : Qc)
    (idx ridx : option nat) (di rdi : Qc) :
  find_nearest_within_loop fuel s p d = Ok (idx, di, ridx, rdi, s') →
  stable s s' ∧
  _find_nearest_within_in_index s' p d (index s') = Ok (false, idx, di) ∧
  (if reverse_index s'
   then ∃ t, rindex s' = Some t ∧
             _find_nearest_within_in_index s' p d t = Ok (false, ridx, rdi)
   else ridx = None ∧ rdi = 0%Qc).
Proof.
  revert s. induction fuel as [|fuel IH]; intros s H; simpl in H; [done|].
  apply bind_Ok in H as ([[r1 i1] d1] & H1 & H).
  destruct r1.
  { apply bind_Ok in H as (s1 & Hs1 & H). apply IH in H as (Hst & H).
    split; [|done]. eapply stable_trans; [by apply reindex_stable | done]. }
  destruct (reverse_index s) eqn:Hrev.
  - apply bind_Ok in H as (t & Ht%orelse_Ok & H).
    apply bind_Ok in H as ([[r2 i2] d2] & H2 & H).
    destruct r2.
    { apply bind_Ok in H as (s1 & Hs1 & H). apply IH in H as (Hst & H).
      split; [|done]. eapply stable_trans; [by apply reindex_stable | done]. }
    simplify_eq. split; [apply stable_refl|]. split; [done|].
    rewrite Hrev. eauto.
  - simplify_eq. split; [apply stable_refl|]. split; [done|]. by rewrite Hrev.
Qed.

Lemma within_loop_fresh (fuel : nat) (s : LineIndex) (p : complex) (d : Qc) :
  fresh s → find_nearest_within_loop (S fuel) s p d ≠ OutOfFuel.
Proof.
  intros Hf. simpl.
  apply bind_fuel; [apply within_in_index_fuel|]. intros [[r1 i1] d1] H1.
  rewrite (within_in_index_fresh _ _ _ _ _ _ _ Hf (fresh_index s Hf) H1).
  destruct (reverse_index s); [|done].
  apply bind_fuel; [apply orelse_fuel|]. intros t Ht%orelse_Ok.
  apply bind_fuel; [apply within_in_index_fuel|]. intros [[r2 i2] d2] H2.
  rewrite (within_in_index_fresh _ _ _ _ _ _ _ Hf (fresh_rindex s Hf t Ht) H2).
  done.
Qed.

(** The loop of a bounded query is left after at most two turns. *)
Lemma within_loop_fuel (fuel : nat) (s : LineIndex) (p : complex) (d : Qc) :
  find_nearest_within_loop (S (S fuel)) s p d ≠ OutOfFuel.
Proof.
  cbn [find_nearest_within_loop].
  apply bind_fuel; [apply within_in_index_fuel|]. intros [[r1 i1] d1] H1.
  destruct r1.
  { apply bind_fuel; [apply reindex_fuel|]. intros s1 (_ & _ & Hf)%reindex_Ok.
    by apply (within_loop_fresh fuel). }
  destruct (reverse_index s); [|done].
  apply bind_fuel; [apply orelse_fuel|]. intros t Ht.
  apply bind_fuel; [apply within_in_index_fuel|]. intros [[r2 i2] d2] H2.
  destruct r2; [|done].
  apply bind_fuel; [apply reindex_fuel|]. intros s1 (_ & _ & Hf)%reindex_Ok.
  by apply (within_loop_fresh fuel).
Qed.

Lemma find_nearest_within_Ok (fuel : nat) (s s' : LineIndex) (p : complex) (d : Qc)
    (idx : option nat) (rev : bool) :
  find_nearest_within fuel s p d = Ok (idx, rev, s') →
  stable s s' ∧
  (∀ i, idx = Some i → available s' !! i = Some true) ∧
  (reverse_index s = false → rev = false).
Proof.
  unfold find_nearest_within. intros H.
  apply bind_Ok in H as ([[[[i1 d1] i2] d2] s1] & Hloop & H).
  apply within_loop_Ok in Hloop as (Hst & H1 & H2).
  assert (∀ i, i1 = Some i → available s1 !! i = Some true) as Ha1.
  { intros i ->. by apply within_in_index_Some in H1 as (_ & ? & _). }
  rewrite <- (stable_reverse _ _ Hst).
  destruct (reverse_index s1).
  - destruct H2 as (t & Ht & H2).
    assert (∀ i, i2 = Some i → available s1 !! i = Some true) as Ha2.
    { intros i ->. by apply within_in_index_Some in H2 as (_ & ? & _). }
    destruct i1 as [j1|], i2 as [j2|]; try case_bool_decide; simplify_eq; auto.
  - simplify_eq. auto.
Qed.

Lemma find_nearest_within_fuel (fuel : nat) (s : LineIndex) (p : complex) (d : Qc) :
  find_nearest_within (S (S fuel)) s p d ≠ OutOfFuel.
Proof.
  unfold find_nearest_within. apply bind_fuel; [apply within_loop_fuel|].
  intros [[[[i1 d1] i2] d2] s1] _.
  destruct (reverse_index s1); [|done].
  destruct i1, i2; try case_bool_decide; done.
Qed.

(** ** find_nearest *)


Lemma first_available_Some (s : LineIndex) (r : list (dist * nat)) (i : nat) (d : Qc) :
  first_available s r = Ok (Some i, d) → available s !! i = Some true.
Proof.
  induction r as [|[[d'|] i'] r IH]; simpl; intros H; [done | | auto].
  apply bind_Ok in H as (a & Ha%orelse_Ok & H).
  destruct a; [by simplify_eq | auto].
Qed.



Lemma nearest_loop_Ok (fuel : nat) (s s' : LineIndex) (p : complex)
    (idx ridx : option nat) (di rdi : Qc) :
  find_nearest_loop fuel s p = Ok (idx, di, ridx, rdi, s') →
  stable s s' ∧
  (∃ i, idx = Some i ∧ available s' !! i = Some true) ∧
  (if reverse_index s'
   then ∃ j, ridx = Some j ∧ available s' !! j = Some true
   else ridx = None).
Proof.
  revert s. induction fuel as [|fuel IH]; intros s H; simpl in H; [done|].
  apply bind_Ok in H as ([i1 d1] & H1 & H).
  assert ((s1 ← _reindex s; find_nearest_loop fuel s1 p)
                = Ok (idx, di, ridx, rdi, s') →
    stable s s' ∧
    (∃ i, idx = Some i ∧ available s' !! i = Some true) ∧
    (if reverse_index s'
     then ∃ j, ridx = Some j ∧ available s' !! j = Some true
     else ridx = None)) as Hre.
  { intros H'. apply bind_Ok in H' as (s1 & Hs1 & H'). apply IH in H' as (Hst & H').
    split; [|done]. eapply stable_trans; [by apply reindex_stable | done]. }
  destruct (reverse_index s) eqn:Hrev.
  - apply bind_Ok in H as (t & Ht%orelse_Ok & H).
    apply bind_Ok in H as ([i2 d2] & H2 & H).
    destruct i2 as [j2|], i1 as [j1|]; try by apply Hre.
    simplify_eq. split; [apply stable_refl|]. rewrite Hrev.
    apply first_available_Some in H1, H2. split; eauto.
  - destruct i1 as [j1|]; [|by apply Hre].
    simplify_eq. split; [apply stable_refl|]. rewrite Hrev.
    apply first_available_Some in H1. split; eauto.
Qed.



Lemma find_nearest_Ok (fuel : nat) (s s' : LineIndex) (p : complex)
    (idx : option nat) (rev : bool) :
  find_nearest fuel s p = Ok (idx, rev, s') →
  stable s s' ∧
  (∃ i, idx = Some i ∧ available s' !! i = Some true) ∧
  (reverse_index s = false → rev = false).
Proof.
  unfold find_nearest. intros H.
  apply bind_Ok in H as ([[[[i1 d1] i2] d2] s1] & Hloop & H).
  apply nearest_loop_Ok in Hloop as (Hst & H1 & H2).
  rewrite <- (stable_reverse _ _ Hst).
  destruct (reverse_index s1).
  - case_bool_decide; simplify_eq; auto.
  - simplify_eq. auto.
Qed.


(** ** Consistent indices and the rebuilds that queries ask for *)

Lemma fresh_consistent (s : LineIndex) : fresh s → consistent s.
Proof.
  intros [Ha Hi Hr _]. split; [|done|done].
  by rewrite Ha, length_replicate.
Qed.

Lemma init_consistent (ls : list line) (rev : bool) (s : LineIndex) :
  LineIndex_init ls rev = Ok s → consistent s.
Proof. intros (_ & _ & Hf)%make_index_Ok. by apply fresh_consistent. Qed.

Lemma set_unavailable_consistent (s : LineIndex) (i : nat) :
  consistent s → consistent (set_unavailable s i).
Proof. intros [Ha Hi Hr]. split; simpl; [by rewrite length_insert | done | done]. Qed.

Lemma within_loop_state (fuel : nat) (s s' : LineIndex) (p : complex) (d : Qc)
    (idx ridx : option nat) (di rdi : Qc) :
  find_nearest_within_loop fuel s p d = Ok (idx, di, ridx, rdi, s') →
  s' = s ∨ fresh s'.
Proof.
  revert s. induction fuel as [|fuel IH]; intros s H; simpl in H; [done|].
  assert (∀ s1, _reindex s = Ok s1 →
            find_nearest_within_loop fuel s1 p d = Ok (idx, di, ridx, rdi, s') →
            fresh s') as Hre.
  { intros s1 (_ & _ & Hf)%reindex_Ok [->|?]%IH; done. }
  apply bind_Ok in H as ([[r1 i1] d1] & H1 & H).
  destruct r1.
  { apply bind_Ok in H as (s1 & Hs1 & H). right. by eapply Hre. }
  destruct (reverse_index s).
  - apply bind_Ok in H as (t & Ht & H).
    apply bind_Ok in H as ([[r2 i2] d2] & H2 & H).
    destruct r2.
    + apply bind_Ok in H as (s1 & Hs1 & H). right. by eapply Hre.
    + simplify_eq. by left.
  - simplify_eq. by left.
Qed.

Lemma nearest_loop_state (fuel : nat) (s s' : LineIndex) (p : complex)
    (idx ridx : option nat) (di rdi : Qc) :
  find_nearest_loop fuel s p = Ok (idx, di, ridx, rdi, s') →
  s' = s ∨ fresh s'.
Proof.
  revert s. induction fuel as [|fuel IH]; intros s H; simpl in H; [done|].
  assert ((s1 ← _reindex s; find_nearest_loop fuel s1 p)
            = Ok (idx, di, ridx, rdi, s') → fresh s') as Hre.
  { intros H'. apply bind_Ok in H' as (s1 & (_ & _ & Hf)%reindex_Ok & H').
    by apply IH in H' as [->|?]. }
  apply bind_Ok in H as ([i1 d1] & H1 & H).
  destruct (reverse_index s).
  - apply bind_Ok in H as (t & Ht & H).
    apply bind_Ok in H as ([i2 d2] & H2 & H).
    destruct i2 as [j2|], i1 as [j1|]; try (right; by apply Hre).
    simplify_eq. by left.
  - destruct i1 as [j1|]; [|right; by apply Hre].
    simplify_eq. by left.
Qed.

Lemma find_nearest_within_consistent (fuel : nat) (s s' : LineIndex) (p : complex)
    (d : Qc) (idx : option nat) (rev : bool) :
  consistent s → find_nearest_within fuel s p d = Ok (idx, rev, s') → consistent s'.
Proof.
  intros Hc H. unfold find_nearest_within in H.
  apply bind_Ok in H as ([[[[i1 d1] i2] d2] s1] & Hloop & H).
  assert (s' = s1) as ->.
  { destruct (reverse_index s1); [|by simplify_eq].
    destruct i1, i2; try case_bool_decide; by simplify_eq. }
  apply within_loop_state in Hloop as [->|Hf]; [done | by apply fresh_consistent].
Qed.

Lemma find_nearest_consistent (fuel : nat) (s s' : LineIndex) (p : complex)
    (idx : option nat) (rev : bool) :
  consistent s → find_nearest fuel s p = Ok (idx, rev, s') → consistent s'.
Proof.
  intros Hc H. unfold find_nearest in H.
  apply bind_Ok in H as ([[[[i1 d1] i2] d2] s1] & Hloop & H).
  assert (s' = s1) as ->.
  { destruct (reverse_index s1); [|by simplify_eq].
    case_bool_decide; by simplify_eq. }
  apply nearest_loop_state in Hloop as [->|Hf]; [done | by apply fresh_consistent].
Qed.

Lemma pop_consistent (s s' : LineIndex) (i : nat) (o : option line) :
  consistent s → pop s i = Ok (o, s') → consistent s'.
Proof.
  intros Hc H. destruct o as [l|].
  - apply pop_Some in H as (_ & _ & ->). by apply set_unavailable_consistent.
  - unfold pop in H. apply bind_Ok in H as (a & _ & H).
    destruct a; simpl in H; [|by simplify_eq].
    apply bind_Ok in H as (l & _ & H). by simplify_eq.
Qed.

Lemma pop_front_consistent (s s' : LineIndex) (o : option line) :
  consistent s → pop_front s = Ok (o, s') → consistent s'.
Proof.
  intros Hc H. destruct o as [l|].
  - apply pop_front_Some in H as (i & _ & _ & ->). by apply set_unavailable_consistent.
  - unfold pop_front in H. destruct (len s =? 0); [by simplify_eq|].
    apply bind_Ok in H as (l & _ & H). by simplify_eq.
Qed.

Lemma perform_consistent (fuel : nat) (s s' : LineIndex) (o : op) (a : option nat) :
  consistent s → perform fuel s o = Ok (a, s') → consistent s'.
Proof.
  intros Hc H. destruct o as [i| |p d|p]; simpl in H.
  - apply bind_Ok in H as ([r s1] & Hpop & H). simplify_eq. by eapply pop_consistent.
  - apply bind_Ok in H as ([r s1] & Hpop & H). simplify_eq.
    by eapply pop_front_consistent.
  - apply bind_Ok in H as ([[i rev] s1] & Hq & H). simplify_eq.
    by eapply find_nearest_within_consistent.
  - apply bind_Ok in H as ([[i rev] s1] & Hq & H). simplify_eq.
    by eapply find_nearest_consistent.
Qed.

Lemma perform_all_consistent (fuel : nat) (s s' : LineIndex) (ops : list op) :
  consistent s → perform_all fuel s ops = Ok s' → consistent s'.
Proof.
  revert s. induction ops as [|o ops IH]; intros s Hc H; simpl in H.
  - by simplify_eq.
  - apply bind_Ok in H as ([a s1] & Ho & H).
    eapply IH; [|done]. by eapply perform_consistent.
Qed.




(** ** One turn of the merging loop *)

Lemma line_last_Ok (l : line) (e : complex) :
  line_last l = Ok e → ∃ l', l = l' ++ [e].
Proof. unfold line_last. rewrite orelse_Ok. by intros ?%last_Some. Qed.

Lemma line_first_Ok (l : line) (b : complex) :
  line_first l = Ok b → ∃ l', l = b :: l'.
Proof. unfold line_first. rewrite orelse_Ok. by intros ?%head_Some. Qed.

Lemma splice_fuel (l new_line : line) : splice l new_line ≠ OutOfFuel.
Proof.
  unfold splice. apply bind_fuel; [apply orelse_fuel|]. intros e _.
  apply bind_fuel; [apply orelse_fuel | done].
Qed.

(** A splice makes one point of the last point of the chain and the first
    point of the new line. *)
Lemma splice_length (l new_line l' : line) :
  splice l new_line = Ok l' → length l' + 1 = length l + length new_line.
Proof.
  unfold splice. intros H.
  apply bind_Ok in H as (e & [l1 ->]%line_last_Ok & H).
  apply bind_Ok in H as (b & [l2 ->]%line_first_Ok & H).
  injection H as <-. rewrite !length_app, length_take, length_app. simpl.
  rewrite drop_0. lia.
Qed.

Lemma attach_Ok (s s' : LineIndex) (l l' : line) (i : nat) (rev : bool) :
  attach s l i rev = Ok (l', s') →
  ∃ nl, available s !! i = Some true ∧ lines s !! i = Some nl ∧
        s' = set_unavailable s i ∧
        splice l (if rev then flip nl else nl) = Ok l'.
Proof.
  unfold attach. intros H.
  apply bind_Ok in H as ([popped s1] & Hpop & H).
  apply bind_Ok in H as (nl & ->%orelse_Ok & H).
  apply bind_Ok in H as (l3 & Hl3 & H). simplify_eq.
  apply pop_Some in Hpop as (? & ? & ?). eauto.
Qed.

Lemma attach_fuel (s : LineIndex) (l : line) (i : nat) (rev : bool) :
  attach s l i rev ≠ OutOfFuel.
Proof.
  unfold attach. apply bind_fuel; [apply pop_fuel|]. intros [popped s1] _.
  apply bind_fuel; [apply orelse_fuel|]. intros nl _.
  apply bind_fuel; [apply splice_fuel | done].
Qed.

Lemma attach_turn (s s1 s' : LineIndex) (l l2 l' : line) (no_flip : bool)
    (i : nat) (rev : bool) :
  stable s s1 →
  (l2 = l ∨ (no_flip = false ∧ l2 = flip l)) →
  (reverse_index s = false → rev = false) →
  attach s1 l2 i rev = Ok (l', s') →
  turn_spec s l no_flip (Extended l') s'.
Proof.
  intros [Hr Hp Hl] Hl2 Hrev (nl & Ha & Hnl & -> & Hs)%attach_Ok.
  eapply (turn_extended _ _ _ _ l2 nl); [done | | | done | | done].
  - rewrite <- Hp. by apply remove_pending.
  - rewrite (remove_len s1 i Ha) in Hl. lia.
  - destruct rev; [right | by left]. split; [|done].
    destruct (reverse_index s); [done|]. by discriminate Hrev.
Qed.

Lemma extend_turn_Ok (fuel : nat) (s s' : LineIndex) (l : line) (tol : Qc)
    (no_flip : bool) (t : turn) :
  extend_turn fuel s l tol no_flip = Ok (t, s') → turn_spec s l no_flip t s'.
Proof.
  unfold extend_turn. intros H.
  apply bind_Ok in H as (e & He & H).
  apply bind_Ok in H as ([[idx rev] s1] & H1 & H).
  apply find_nearest_within_Ok in H1 as (Hst1 & Ha1 & Hrev1).
  apply bind_Ok in H as ([[[idx2 rev2] s2] l2] & Hsel & H).
  destruct idx as [i|]; simpl in Hsel.
  { simplify_eq. apply bind_Ok in H as ([l3 s3] & Hatt & H). simplify_eq.
    eapply attach_turn; [done | by left | done | done]. }
  destruct no_flip; simpl in Hsel.
  { simplify_eq. apply turn_done; [done | by left]. }
  apply bind_Ok in Hsel as (b & Hb & Hsel).
  apply bind_Ok in Hsel as ([[idx3 rev3] s3] & H2 & Hsel). simplify_eq.
  apply find_nearest_within_Ok in H2 as (Hst2 & Ha2 & Hrev2).
  assert (stable s s2) as Hst by (by eapply stable_trans).
  destruct idx2 as [i|].
  - apply bind_Ok in H as ([l3 s3] & Hatt & H). simplify_eq.
    eapply attach_turn; [done | by right | | done].
    intros Hr. apply Hrev2. by rewrite (stable_reverse _ _ Hst1).
  - simplify_eq. apply turn_done; [done | by right].
Qed.

Lemma extend_turn_fuel (fuel : nat) (s : LineIndex) (l : line) (tol : Qc)
    (no_flip : bool) :
  extend_turn (S (S fuel)) s l tol no_flip ≠ OutOfFuel.
Proof.
  unfold extend_turn. apply bind_fuel; [apply orelse_fuel|]. intros e _.
  apply bind_fuel; [apply find_nearest_within_fuel|]. intros [[idx rev] s1] _.
  apply bind_fuel.
  - destruct (_ && _); [|done].
    apply bind_fuel; [apply orelse_fuel|]. intros b _.
    apply bind_fuel; [apply find_nearest_within_fuel|]. by intros [[idx3 rev3] s3] _.
  - intros [[[idx2 rev2] s2] l2] _. destruct idx2; [|done].
    apply bind_fuel; [apply attach_fuel|]. by intros [l3 s3] _.
Qed.

(** ** The merging loops *)

Lemma extend_Ok (fuel steps : nat) (s s' : LineIndex) (l l' : line) (tol : Qc)
    (no_flip : bool) (m m' : nat) :
  extend fuel steps s l tol no_flip m = Ok (l', m', s') →
  chain_run no_flip s l m s' l' m'.
Proof.
  revert s l m. induction steps as [|steps IH]; intros s l m H; simpl in H; [done|].
  apply bind_Ok in H as ([t s1] & Ht%extend_turn_Ok & H).
  destruct t as [l1|l1].
  - eapply chain_run_step; [done | by apply IH].
  - simplify_eq. by apply chain_run_done.
Qed.

Lemma extend_fuel (fuel steps : nat) (s : LineIndex) (l : line) (tol : Qc)
    (no_flip : bool) (m : nat) :
  len s < steps →
  extend (S (S fuel)) steps s l tol no_flip m ≠ OutOfFuel.
Proof.
  revert s l m. induction steps as [|steps IH]; intros s l m Hlen; [lia|].
  simpl. apply bind_fuel; [apply extend_turn_fuel|].
  intros [t s1] Ht%extend_turn_Ok. destruct t as [l1|l1]; [|done].
  apply IH. inversion Ht; subst. lia.
Qed.

Lemma chain_run_index (no_flip : bool) (s s' : LineIndex) (l l' : line) (m m' : nat) :
  chain_run no_flip s l m s' l' m' →
  reverse_index s' = reverse_index s ∧ len s' ≤ len s.
Proof.
  induction 1 as [s l m s' l' Ht | s l m s1 l1 s' l' m' Ht _ [IH1 IH2]].
  - inversion Ht as [? ? [? ? ?] ?|]; subst. done.
  - inversion Ht; subst. split; [congruence | lia].
Qed.

Lemma point_count_cons (l : line) (c : LineCollection) :
  point_count (l :: c) = length l + point_count c.
Proof. done. Qed.

Lemma point_count_snoc (c : LineCollection) (l : line) :
  point_count (c ++ [l]) = point_count c + length l.
Proof. unfold point_count. rewrite sum_list_with_app. simpl. lia. Qed.

Lemma flip_length (l : line) : length (flip l) = length l.
Proof. apply length_reverse. Qed.

(** Along a chain, what is gained in merges is lost in points and in lines. *)
Lemma chain_run_count (no_flip : bool) (s s' : LineIndex) (l l' : line) (m m' : nat) :
  chain_run no_flip s l m s' l' m' →
  point_count (pending s) + length l + m = point_count (pending s') + length l' + m' ∧
  length (pending s) + m = length (pending s') + m'.
Proof.
  induction 1 as [s l m s' l' Ht | s l m s1 l1 s' l' m' Ht _ [IH1 IH2]].
  - inversion Ht as [? ? [_ Hp _] Hl|]; subst. rewrite Hp.
    destruct Hl as [->|[_ ->]]; by rewrite ?flip_length.
  - inversion Ht as [|? l2 nl nl' ? _ Hp _ Hl2 Hnl Hs]; subst.
    apply splice_length in Hs.
    assert (length l2 = length l) as Hl2'.
    { destruct Hl2 as [->|[_ ->]]; by rewrite ?flip_length. }
    assert (length nl' = length nl) as Hnl'.
    { destruct Hnl as [->|[_ ->]]; by rewrite ?flip_length. }
    unfold point_count in *. rewrite Hp. simpl. lia.
Qed.

Lemma len_zero_pending (s : LineIndex) : len s = 0 → pending s = [].
Proof.
  intros H. pose proof (pending_of_length (lines s) (available s)) as Hle.
  unfold len in H. rewrite H in Hle. unfold pending.
  destruct (pending_of _ _); [done | simpl in Hle; lia].
Qed.

Lemma merge_loop_count (fuel steps : nat) (s : LineIndex) (tol : Qc) (no_flip : bool)
    (acc out : LineCollection) (m m' : nat) :
  merge_loop fuel steps s tol no_flip acc m = Ok (out, m') →
  point_count (pending s) + point_count acc + m = point_count out + m' ∧
  length (pending s) + length acc + m = length out + m'.
Proof.
  revert s acc m. induction steps as [|steps IH]; intros s acc m H; simpl in H; [done|].
  destruct (0 <? len s) eqn:Hlen.
  - apply bind_Ok in H as ([front s1] & Hpop & H).
    apply bind_Ok in H as (l & ->%orelse_Ok & H).
    apply bind_Ok in H as ([[l' m1] s2] & Hext%extend_Ok & H).
    apply pop_front_Some in Hpop as (i & Ha & Hl & ->).
    apply chain_run_count in Hext as [Hc1 Hc2].
    apply IH in H as [H1 H2].
    pose proof (remove_pending s i l Ha Hl) as Hp.
    rewrite point_count_snoc in H1. rewrite length_app in H2. simpl in H2.
    unfold point_count in *. rewrite Hp. simpl. lia.
  - apply Nat.ltb_ge in Hlen. simplify_eq.
    rewrite len_zero_pending by lia. simpl. lia.
Qed.

Lemma merge_loop_fuel (fuel steps : nat) (s : LineIndex) (tol : Qc) (no_flip : bool)
    (acc : LineCollection) (m : nat) :
  len s < steps → len s ≤ S (S fuel) →
  merge_loop (S (S fuel)) steps s tol no_flip acc m ≠ OutOfFuel.
Proof.
  revert s acc m. induction steps as [|steps IH]; intros s acc m Hs Hf; [lia|].
  cbn [merge_loop]. destruct (0 <? len s) eqn:Hlen; [|done].
  apply bind_fuel; [apply pop_front_fuel|]. intros [front s1] Hpop.
  apply bind_fuel; [apply orelse_fuel|]. intros l ->%orelse_Ok.
  apply pop_front_Some in Hpop as (i & Ha & Hl & ->).
  pose proof (remove_len s i Ha) as Hrem.
  apply bind_fuel; [apply extend_fuel; lia|].
  intros [[l' m1] s2] [_ Hle]%extend_Ok%chain_run_index.
  apply IH; lia.
Qed.

(** ** Chains built without flipping *)

Lemma chain_run_forward (input : LineCollection) (s s' : LineIndex) (l l' : line)
    (m m' : nat) :
  chain_run true s l m s' l' m' →
  reverse_index s = false → forward_chain input l → pending s ⊆ input →
  forward_chain input l' ∧ pending s' ⊆ input ∧ reverse_index s' = false.
Proof.
  induction 1 as [s l m s' l' Ht | s l m s1 l1 s' l' m' Ht _ IH];
    intros Hrev Hl Hsub.
  - inversion Ht as [? ? [Hr Hp _] Hl'|]; subst.
    destruct Hl' as [->|[? _]]; [|done]. rewrite Hp, Hr. done.
  - inversion Ht as [|? l2 nl nl' ? Hr Hp _ Hl2 Hnl Hs]; subst.
    destruct Hl2 as [->|[? _]]; [|done].
    destruct Hnl as [->|[? _]]; [|congruence].
    apply IH; [congruence | |].
    + eapply forward_splice; [done | | done].
      apply Hsub. rewrite Hp. constructor.
    + intros x Hx. apply Hsub. rewrite Hp. by constructor.
Qed.

Lemma merge_loop_forward (input : LineCollection) (fuel steps : nat) (s : LineIndex)
    (tol : Qc) (acc out : LineCollection) (m m' : nat) :
  reverse_index s = false → pending s ⊆ input → Forall (forward_chain input) acc →
  merge_loop fuel steps s tol true acc m = Ok (out, m') →
  Forall (forward_chain input) out.
Proof.
  revert s acc m. induction steps as [|steps IH]; intros s acc m Hrev Hsub Hacc H;
    simpl in H; [done|].
  destruct (0 <? len s); [|by simplify_eq].
  apply bind_Ok in H as ([front s1] & Hpop & H).
  apply bind_Ok in H as (l & ->%orelse_Ok & H).
  apply bind_Ok in H as ([[l' m1] s2] & Hext%extend_Ok & H).
  apply pop_front_Some in Hpop as (i & Ha & Hl & ->).
  pose proof (remove_pending s i l Ha Hl) as Hp.
  eapply (chain_run_forward input) in Hext as (Hl' & Hsub' & Hrev'); [| done | |].
  - eapply IH; [done | done | | done].
    apply Forall_app. split; [done|]. by apply Forall_singleton.
  - apply forward_seed, Hsub. rewrite Hp. constructor.
  - intros x Hx. apply Hsub. rewrite Hp. by constructor.
Qed.

(** ** The sorting loop *)


(** Without flipping, the loop appends the lines still in the index, each
    as it is, in some order. *)
Lemma sort_loop_perm (fuel steps : nat) (s : LineIndex) (acc out : LineCollection) :
  reverse_index s = false → sort_loop fuel steps s acc = Ok out →
  ∃ rest, out = acc ++ rest ∧ rest ≡ₚ pending s.
Proof.
  revert s acc. induction steps as [|steps IH]; intros s acc Hrev H; simpl in H; [done|].
  destruct (0 <? len s) eqn:Hlen.
  - apply bind_Ok in H as (cur & _ & H).
    apply bind_Ok in H as (e & _ & H).
    apply bind_Ok in H as ([[idx rev] s1] & Hfind & H).
    apply find_nearest_Ok in Hfind as ([Hr Hp _] & _ & Hnorev).
    rewrite (Hnorev Hrev) in H.
    apply bind_Ok in H as (i & ->%orelse_Ok & H).
    apply bind_Ok in H as ([popped s2] & Hpop & H).
    apply bind_Ok in H as (l & ->%orelse_Ok & H).
    apply pop_Some in Hpop as (Ha & Hl & ->).
    apply IH in H as (rest & -> & Hrest); [|simpl; congruence].
    exists (l :: rest). rewrite <- app_assoc. split; [done|].
    rewrite <- Hp, (remove_pending s1 i l Ha Hl), Hrest. done.
  - apply Nat.ltb_ge in Hlen. simplify_eq. exists [].
    rewrite app_nil_r, len_zero_pending by lia. done.
Qed.

(** ** Whole runs *)

Lemma init_Ok (ls : list line) (rev : bool) (s : LineIndex) :
  LineIndex_init ls rev = Ok s →
  reverse_index s = rev ∧ pending s = ls ∧ len s = length ls.
Proof.
  intros (Hl & Hr & Hf)%make_index_Ok.
  by rewrite (fresh_pending s Hf), (fresh_len s Hf), Hl.
Qed.

Lemma linemerge_counted_fuel (extra : nat) (ls : LineCollection) (tol : Qc)
    (no_flip : bool) :
  linemerge_counted (fuel_for ls + extra) ls tol no_flip ≠ OutOfFuel.
Proof.
  unfold linemerge_counted, fuel_for. destruct (length ls <? 2); [done|].
  apply bind_fuel; [apply make_index_fuel|]. intros s (_ & _ & Hlen)%init_Ok.
  replace (length ls + 2 + extra) with (S (S (length ls + extra))) by lia.
  apply merge_loop_fuel; lia.
Qed.

Lemma linemerge_counted_Ok (fuel : nat) (ls out : LineCollection) (tol : Qc)
    (no_flip : bool) (m : nat) :
  linemerge_counted fuel ls tol no_flip = Ok (out, m) →
  point_count out + m = point_count ls ∧ length out + m = length ls.
Proof.
  unfold linemerge_counted. destruct (length ls <? 2).
  - intros H. simplify_eq. lia.
  - intros H. apply bind_Ok in H as (s & (_ & Hp & _)%init_Ok & H).
    apply merge_loop_count in H as [H1 H2]. rewrite Hp in H1, H2.
    simpl in *. lia.
Qed.

Lemma linemerge_Ok (ls out : LineCollection) (tol : Qc) (no_flip : bool) :
  linemerge ls tol no_flip = Ok out →
  ∃ m, linemerge_counted (fuel_for ls) ls tol no_flip = Ok (out, m).
Proof.
  unfold linemerge. destruct (linemerge_counted _ _ _ _) as [[out' m]| |]; simpl;
    intros H; simplify_eq. eauto.
Qed.

Lemma linemerge_forward (ls out : LineCollection) (tol : Qc) :
  linemerge ls tol true = Ok out → Forall (forward_chain ls) out.
Proof.
  intros [m H]%linemerge_Ok. unfold linemerge_counted in H.
  destruct (length ls <? 2).
  - simplify_eq. apply Forall_forall. intros l Hl. by apply forward_seed.
  - apply bind_Ok in H as (s & (Hr & Hp & _)%init_Ok & H).
    eapply merge_loop_forward in H; [done | done | by rewrite Hp | done].
Qed.


Lemma linesort_perm (ls out : LineCollection) :
  linesort ls true = Ok out → ∃ rest, out = take 1 ls ++ rest ∧ rest ≡ₚ drop 1 ls.
Proof.
  unfold linesort, linesort_fuel. destruct ls as [|l0 [|l1 rest]].
  - intros H. simplify_eq. by exists [].
  - intros H. simplify_eq. by exists [].
  - intros H. apply bind_Ok in H as (s & (Hr & Hp & _)%init_Ok & H).
    apply sort_loop_perm in H as (rest' & -> & Hrest); [|done].
    exists rest'. rewrite Hp in Hrest. done.
Qed.

(** * The claims of the specification *)

(** ** C7: fewer than two polylines *)

(** C7. A collection of zero or one polylines is returned unchanged by
    [linemerge] and by [linesort], for any tolerance and any flag. *)
Theorem fewer_than_two_unchanged (ls : LineCollection) (tol : Qc) (no_flip : bool) :
  length ls < 2 → linemerge ls tol no_flip = Ok ls ∧ linesort ls no_flip = Ok ls.
Proof.
  intros Hlen. split.
  - unfold linemerge, linemerge_counted.
    apply Nat.ltb_lt in Hlen. by rewrite Hlen.
  - unfold linesort, linesort_fuel. destruct ls as [|l0 [|l1 rest]]; [done | done |].
    simpl in Hlen. lia.
Qed.

Lemma fewer_than_two_unchanged_witness :
  length [seg 0 0 1 0] < 2 ∧
  linemerge [seg 0 0 1 0] scenario_tolerance false = Ok [seg 0 0 1 0] ∧
  linesort [seg 0 0 1 0] false = Ok [seg 0 0 1 0].
Proof.
  split; [simpl; lia|].
  apply (fewer_than_two_unchanged [seg 0 0 1 0] scenario_tolerance false).
  simpl; lia.
Defined.

(** ** C10: removing what is not there *)

(** C10. [pop(idx)] on an entry that is not available returns [None] and
    leaves the index, its availability array included, as it was; so does
    [pop_front()] on an index without available entries. *)
Theorem pop_unavailable_unchanged (s : LineIndex) :
  (∀ idx, available s !! idx = Some false → pop s idx = Ok (None, s)) ∧
  (len s = 0 → pop_front s = Ok (None, s)).
Proof.
  split.
  - intros idx H. unfold pop. by rewrite H.
  - intros H. unfold pop_front. by rewrite H.
Qed.

Lemma pop_unavailable_unchanged_witness :
  (available emptied !! 1 = Some false ∧ pop emptied 1 = Ok (None, emptied)) ∧
  (len emptied = 0 ∧ pop_front emptied = Ok (None, emptied)).
Proof.
  split; (split; [reflexivity|]).
  - apply (proj1 (pop_unavailable_unchanged emptied) 1). reflexivity.
  - apply (proj2 (pop_unavailable_unchanged emptied)). reflexivity.
Defined.

(** ** C1: the merge scenario *)

(** C1, as amended.  With flipping disabled, [linemerge] on the two
    polylines of the scenario with tolerance 0.05 gives the single polyline
    [(0,0), (1.01,0), (2,0)]; the joined point is the midpoint of [(1,0)]
    and [(1.02,0)]. *)
Theorem linemerge_scenario :
  linemerge scenario scenario_tolerance true = Ok [scenario_merged] ∧
  cscale half (cadd (Complex 1 0) (Complex (q 102 100) 0)) = Complex (q 101 100) 0.
Proof. split; compute_done. Qed.

(** With flipping enabled the same run gives the points in the opposite
    order, so the scenario does not hold for every flag. *)
Lemma linemerge_scenario_flip :
  ¬ ∀ no_flip, linemerge scenario scenario_tolerance no_flip = Ok [scenario_merged].
Proof.
  intros H. specialize (H false).
  assert (linemerge scenario scenario_tolerance false = Ok [flip scenario_merged])
    as H' by compute_done.
  rewrite H' in H. by injection H.
Qed.

(** ** C8: lines exactly the tolerance apart *)

(** C8, at its failing input.  Two unit-length polylines whose facing
    endpoints are exactly the tolerance apart are not merged: the nearest
    neighbour query reports only points strictly closer than its bound,
    whatever the tolerance.  Closer than the tolerance they are merged,
    farther they are not. *)
Theorem linemerge_at_tolerance :
  (∀ tol, within (Some tol) (sq tol) = false) ∧
  linemerge apart_half (q 1 2) true = Ok apart_half ∧
  linemerge apart_half (q 1 2) false = Ok (flip <$> apart_half) ∧
  linemerge apart_half (q 51 100) true
    = Ok [[Complex 0 0; Complex (q 5 4) 0; Complex (q 5 2) 0]] ∧
  linemerge apart_half (q 49 100) true = Ok apart_half.
Proof.
  split; [|repeat split; compute_done].
  intros tol. simpl. apply bool_decide_eq_false_2, Qcle_not_lt, Qcle_refl.
Qed.

(** ** C2: conservation of points *)

(** C2. Whatever the collection, the tolerance and the flag, the points of
    the output of [linemerge] and its merges add up to the points of the
    input: each merge makes one point of two.  The same holds of the
    lines.  A run with the fuel of [linemerge] does not run out of it. *)
Theorem merge_conservation (ls : LineCollection) (tol : Qc) (no_flip : bool) :
  linemerge_counted (fuel_for ls) ls tol no_flip ≠ OutOfFuel ∧
  ∀ fuel out merges,
    linemerge_counted fuel ls tol no_flip = Ok (out, merges) →
    point_count out + merges = point_count ls ∧ length out + merges = length ls.
Proof.
  split.
  - pose proof (linemerge_counted_fuel 0 ls tol no_flip) as H.
    by rewrite Nat.add_0_r in H.
  - intros fuel out merges. apply linemerge_counted_Ok.
Qed.

Lemma merge_conservation_witness :
  linemerge_counted 4 scenario scenario_tolerance false
    = Ok ([flip scenario_merged], 1) ∧
  point_count [flip scenario_merged] + 1 = point_count scenario ∧
  length [flip scenario_merged] + 1 = length scenario.
Proof.
  assert (linemerge_counted 4 scenario scenario_tolerance false
          = Ok ([flip scenario_merged], 1)) as H by compute_done.
  split; [exact H|].
  exact (proj2 (merge_conservation scenario scenario_tolerance false) 4 _ _ H).
Defined.

(** ** C3: queries answer available entries only *)


(** A removed entry is flagged, so that the theorem above excludes it. *)
Lemma pop_marks (s s' : LineIndex) (idx : nat) (l : line) :
  pop s idx = Ok (Some l, s') → available s' !! idx = Some false.
Proof.
  intros (Ha & _ & ->)%pop_Some. simpl.
  apply list_lookup_insert_eq. by eapply lookup_lt_Some.
Qed.


(** ** C4: termination *)





(** The exception of a run: once all of fifty lines that end where they
    start were merged, the query finds fifty entries, none available, and
    the rebuild makes a tree of no point. *)
Example linemerge_raises :
  linemerge (replicate 50 [Complex 0 0; Complex 1 0; Complex 0 0]) scenario_tolerance true
  = Raise ValueError.
Proof. vm_compute. reflexivity. Qed.

(** ** C5: the nearer of a start and an end *)

(** C5. In a bounded query on an index that keeps the end points, when
    the tree of the start points answers an entry [i] at distance [di] and
    the tree of the end points an entry [j] at distance [dj], the answer is
    [j], matched by its end, when [dj < di], and [i], matched by its start,
    otherwise: so also when the distances are equal. *)
Theorem find_nearest_within_both (fuel : nat) (s : LineIndex) (p : complex)
    (max_dist : Qc) (t : KDTree) (i j : nat) (di dj : Qc) :
  reverse_index s = true → rindex s = Some t →
  _find_nearest_within_in_index s p max_dist (index s) = Ok (false, Some i, di) →
  _find_nearest_within_in_index s p max_dist t = Ok (false, Some j, dj) →
  ((dj < di)%Qc → find_nearest_within (S fuel) s p max_dist = Ok (Some j, true, s)) ∧
  ((di < dj)%Qc → find_nearest_within (S fuel) s p max_dist = Ok (Some i, false, s)) ∧
  (di = dj → find_nearest_within (S fuel) s p max_dist = Ok (Some i, false, s)).
Proof.
  intros Hrev Ht Hi Hj.
  assert (find_nearest_within (S fuel) s p max_dist
          = if bool_decide (dj < di)%Qc then Ok (Some j, true, s)
            else Ok (Some i, false, s)) as ->.
  { unfold find_nearest_within. cbn [find_nearest_within_loop].
    rewrite Hi. simpl. rewrite Hrev, Ht. simpl. rewrite Hj. simpl.
    by rewrite Hrev. }
  split; [|split].
  - intros H. by rewrite bool_decide_eq_true_2.
  - intros H. rewrite bool_decide_eq_false_2; [done|]. by apply Qcle_not_lt, Qclt_le_weak.
  - intros ->. rewrite bool_decide_eq_false_2; [done|]. apply Qcle_not_lt, Qcle_refl.
Qed.

Lemma find_nearest_within_both_witness :
  find_nearest_within 1 tie_index (Complex 1 0) (q 2 1) = Ok (Some 0, false, tie_index).
Proof.
  refine (proj2 (proj2 (find_nearest_within_both 0 tie_index (Complex 1 0) (q 2 1)
                          tie_ends 0 1 1%Qc 1%Qc _ _ _ _)) _).
  - reflexivity.
  - reflexivity.
  - compute_done.
  - compute_done.
  - reflexivity.
Defined.

(** ** C6: no flipping when it is disabled *)

(** C6. With flipping disabled, every polyline that [linemerge] outputs is
    made of polylines of the input taken in their own point order, each
    spliced onto the end of the one before; and [linesort] outputs the
    first polyline of the input followed by the others, each as it is, in
    some order. *)
Theorem no_flip_keeps_point_order (ls : LineCollection) :
  (∀ tol out, linemerge ls tol true = Ok out → Forall (forward_chain ls) out) ∧
  (∀ out, linesort ls true = Ok out →
     ∃ rest, out = take 1 ls ++ rest ∧ rest ≡ₚ drop 1 ls).
Proof.
  split.
  - intros tol out. apply linemerge_forward.
  - intros out. apply linesort_perm.
Qed.

Lemma no_flip_keeps_point_order_witness :
  Forall (forward_chain scenario) [scenario_merged] ∧
  ∃ rest, [seg 0 0 0 1; seg 0 (q 2 1) 0 (q 3 1); seg (q 5 1) (q 5 1) (q 5 1) (q 6 1)]
            = take 1 sort_scenario ++ rest ∧ rest ≡ₚ drop 1 sort_scenario.
Proof.
  split.
  - apply (proj1 (no_flip_keeps_point_order scenario) scenario_tolerance).
    compute_done.
  - apply (proj2 (no_flip_keeps_point_order sort_scenario)).
    compute_done.
Defined.

(** ** C9: the flip of a chain that is not extended *)




(** * Further properties of the code *)

(** ** multipass *)

Lemma backwards_length (l : line) : length (backwards l) = length l - 1.
Proof. unfold backwards. rewrite length_reverse, length_take. lia. Qed.

Lemma pass_length (l : line) (i : nat) : length (pass l i) = length l - 1.
Proof.
  unfold pass. destruct (Nat.even i); [apply backwards_length|].
  by rewrite length_drop.
Qed.

Lemma passes_length (l : line) (j n : nat) :
  length (mjoin (pass l <$> seq j n)) = n * (length l - 1).
Proof.
  revert j. induction n as [|n IH]; intros j; simpl; [done|].
  by rewrite length_app, pass_length, IH.
Qed.

Lemma pass_elem (l : line) (i : nat) (x : complex) : x ∈ pass l i → x ∈ l.
Proof.
  unfold pass, backwards. destruct (Nat.even i).
  - rewrite elem_of_reverse. intros (j & Hj & _)%elem_of_take.
    by eapply list_elem_of_lookup_2.
  - intros (j & Hj)%list_elem_of_lookup_1. rewrite lookup_drop in Hj.
    by eapply list_elem_of_lookup_2.
Qed.

(** X16.  With two passes or more, [multipass] keeps the number of lines and
    makes of a line of [n] points a line of [n + (count - 1) * (n - 1)]
    points, which begins with the line and has no other point than the
    points of the line. *)
Theorem multipass_lines (ls : LineCollection) (count : Z) (i : nat) (l : line) :
  (2 ≤ count)%Z → ls !! i = Some l →
  length (multipass ls count) = length ls ∧
  ∃ l', multipass ls count !! i = Some l' ∧
        length l' = length l + Z.to_nat (count - 1) * (length l - 1) ∧
        take (length l) l' = l ∧
        ∀ x, x ∈ l' → x ∈ l.
Proof.
  intros Hc Hl. unfold multipass.
  destruct (count <? 2)%Z eqn:Hlt; [apply Z.ltb_lt in Hlt; lia|].
  split; [by rewrite length_fmap|].
  exists (multipass_line count l). unfold LineCollection, line in *.
  rewrite list_lookup_fmap, Hl.
  split; [done|]. unfold multipass_line.
  split; [by rewrite length_app, passes_length|].
  split; [by rewrite take_app_length|].
  intros x [Hx|Hx]%elem_of_app; [done|].
  apply list_elem_of_join in Hx as (piece & Hx & Hp).
  apply list_elem_of_fmap in Hp as (j & -> & _). by eapply pass_elem.
Qed.

Lemma multipass_lines_witness :
  length (multipass scenario 3) = length scenario ∧
  ∃ l', multipass scenario 3 !! 0 = Some l' ∧
        length l' = length (seg 0 0 1 0) + Z.to_nat (3 - 1) * (length (seg 0 0 1 0) - 1) ∧
        take (length (seg 0 0 1 0)) l' = seg 0 0 1 0 ∧
        ∀ x, x ∈ l' → x ∈ seg 0 0 1 0.
Proof.
  apply (multipass_lines scenario 3 0 (seg 0 0 1 0)); [lia | reflexivity].
Defined.

Lemma passes_snoc (l : line) (n : nat) :
  mjoin (pass l <$> seq 0 (S n)) = mjoin (pass l <$> seq 0 n) ++ pass l n.
Proof.
  unfold line. rewrite seq_S, fmap_app, join_app. simpl. by rewrite app_nil_r.
Qed.

Lemma backwards_last (l : line) : 2 ≤ length l → last (backwards l) = head l.
Proof.
  intros Hl. unfold backwards. rewrite last_reverse.
  destruct l as [|a [|b l]]; simpl in *; try lia. done.
Qed.

Lemma drop_one_last (l : line) : 2 ≤ length l → last (drop 1 l) = last l.
Proof. destruct l as [|a [|b l]]; simpl; intros; try lia. done. Qed.

Lemma even_of_nat (n : nat) : Z.even (Z.of_nat n) = Nat.even n.
Proof.
  destruct (Nat.Even_or_Odd n) as [[k ->]|[k ->]].
  - rewrite Nat2Z.inj_mul, Z.even_mul, Nat.even_mul. done.
  - rewrite Nat2Z.inj_add, Nat2Z.inj_mul, Z.even_add, Z.even_mul.
    rewrite Nat.even_add, Nat.even_mul. done.
Qed.

(** X17.  With two passes or more, the line that [multipass] makes of a line
    begins where the line begins; it ends where the line begins when the
    number of passes is even, and where the line ends when it is odd. *)
Theorem multipass_endpoints (count : Z) (l : line) :
  (2 ≤ count)%Z → l ≠ [] →
  head (multipass_line count l) = head l ∧
  last (multipass_line count l) = if Z.even count then head l else last l.
Proof.
  intros Hc Hl. unfold multipass_line. split.
  { destruct l; [done|]. done. }
  destruct (Z.to_nat (count - 1)) as [|n] eqn:Hn; [lia|].
  assert (Z.even count = Nat.even n) as ->.
  { replace count with (Z.of_nat n + 2)%Z by lia.
    rewrite Z.even_add, even_of_nat. by destruct (Nat.even n). }
  rewrite passes_snoc, app_assoc, last_app.
  destruct (decide (2 ≤ length l)) as [Hlen|Hlen].
  - unfold pass. destruct (Nat.even n).
    + rewrite backwards_last by done. by destruct l.
    + rewrite drop_one_last by done.
      destruct (last l) eqn:E; [done|]. by apply last_None in E.
  - destruct l as [|a [|b l]]; [done | | simpl in Hlen; lia].
    assert (pass [a] n = []) as ->.
    { apply nil_length_inv. by rewrite pass_length. }
    assert (mjoin (pass [a] <$> seq 0 n) = []) as ->.
    { apply nil_length_inv. rewrite passes_length. simpl. lia. }
    simpl. by destruct (Nat.even n).
Qed.

Lemma multipass_endpoints_witness :
  head (multipass_line 4 scenario_merged) = head scenario_merged ∧
  last (multipass_line 4 scenario_merged)
    = if Z.even 4 then head scenario_merged else last scenario_merged.
Proof. apply (multipass_endpoints 4 scenario_merged); [lia | done]. Defined.

Lemma power_reverse {A : Type} (w : list A) (m : nat) :
  reverse (mjoin (replicate m w)) = mjoin (replicate m (reverse w)).
Proof.
  induction m as [|m IH]; [done|]. simpl. rewrite reverse_app, IH.
  clear IH. induction m as [|m IH]; simpl; [by rewrite app_nil_r|].
  by rewrite <- app_assoc, IH.
Qed.

Lemma power_shift {A : Type} (a : A) (w : list A) (m : nat) :
  reverse w ++ [a] = a :: w →
  mjoin (replicate m (reverse w)) ++ [a] = a :: mjoin (replicate m w).
Proof.
  intros Hw. induction m as [|m IH]; simpl; [done|].
  rewrite <- app_assoc, IH.
  change (reverse w ++ a :: ?x) with (reverse w ++ [a] ++ x).
  by rewrite app_assoc, Hw.
Qed.

Lemma power_comm {A : Type} (w : list A) (m : nat) :
  mjoin (replicate m w) ++ w = w ++ mjoin (replicate m w).
Proof.
  induction m as [|m IH]; simpl; [by rewrite app_nil_r|].
  by rewrite <- app_assoc, IH.
Qed.

Lemma passes_odd (l : line) (k : nat) :
  mjoin (pass l <$> seq 0 (S (2 * k)))
  = backwards l ++ mjoin (replicate k (drop 1 l ++ backwards l)).
Proof.
  induction k as [|k IH]; [simpl; by rewrite !app_nil_r|].
  replace (S (2 * S k)) with (S (S (S (2 * k)))) by lia.
  assert (Nat.even (S (2 * k)) = false) as Hodd.
  { rewrite Nat.even_succ, <- Nat.negb_even, Nat.even_mul. done. }
  assert (Nat.even (S (S (2 * k))) = true) as Heven.
  { rewrite Nat.even_succ_succ, Nat.even_mul. done. }
  rewrite passes_snoc, passes_snoc, IH. unfold pass. rewrite Hodd, Heven.
  cbn [replicate mjoin list_join]. rewrite <- !app_assoc. f_equal.
  rewrite (app_assoc (drop 1 l) (backwards l)). by rewrite <- power_comm.
Qed.

Lemma round_trip_palindrome (l : line) : reverse (l ++ backwards l) = l ++ backwards l.
Proof.
  unfold backwards. destruct (last l) as [z|] eqn:Hz.
  - apply last_Some in Hz as [xs ->].
    rewrite length_app. simpl. replace (length xs + 1 - 1) with (length xs) by lia.
    rewrite take_app_length, reverse_app, reverse_involutive, reverse_snoc.
    by rewrite <- app_assoc.
  - apply last_None in Hz as ->. done.
Qed.

(** X18.  With an even number of passes, the line that [multipass] makes reads
    the same in both directions. *)
Theorem multipass_even_mirror (count : Z) (l : line) :
  (2 ≤ count)%Z → Z.even count = true →
  reverse (multipass_line count l) = multipass_line count l.
Proof.
  intros Hc Heven. unfold multipass_line.
  assert (∃ k, Z.to_nat (count - 1) = S (2 * k)) as [k ->].
  { apply Z.even_spec in Heven as [c ->]. exists (Z.to_nat c - 1). lia. }
  rewrite passes_odd, app_assoc.
  pose proof (round_trip_palindrome l) as Hpal.
  destruct l as [|a l].
  { simpl. clear. induction k; simpl; done. }
  assert (drop 1 (a :: l) ++ backwards (a :: l) = drop 1 ((a :: l) ++ backwards (a :: l)))
    as -> by done.
  destruct ((a :: l) ++ backwards (a :: l)) as [|a' w] eqn:HR; [done|].
  simpl in HR. injection HR as <- _. simpl drop.
  rewrite reverse_cons in Hpal.
  rewrite reverse_app, power_reverse, reverse_cons.
  rewrite app_assoc, power_comm, <- app_assoc.
  change (a :: w ++ ?x) with ((a :: w) ++ x). rewrite <- Hpal.
  rewrite <- app_assoc. f_equal. by apply power_shift.
Qed.

Lemma multipass_even_mirror_witness :
  reverse (multipass_line 4 scenario_merged) = multipass_line 4 scenario_merged.
Proof. apply (multipass_even_mirror 4 scenario_merged); [lia | reflexivity]. Defined.

(** ** splitall *)

Lemma segments_lookup (l : line) (i : nat) (sg : line) :
  segments l !! i = Some sg ↔ S i < length l ∧ sg = take 2 (drop i l).
Proof.
  unfold segments. rewrite list_lookup_fmap_Some. split.
  - intros (j & -> & Hj). apply lookup_seq in Hj as [-> Hlt]. simpl. split; [lia | done].
  - intros [Hlt ->]. exists i. split; [done|]. apply lookup_seq. split; [done | lia].
Qed.

Lemma segment_length (l : line) (i : nat) : S i < length l → length (take 2 (drop i l)) = 2.
Proof. intros H. rewrite length_take, length_drop. lia. Qed.

Lemma segments_two (ls : LineCollection) :
  (∀ sg, sg ∈ splitall ls → length sg = 2) ∧
  length (splitall ls) = sum_list_with (λ l, length l - 1) ls.
Proof.
  unfold splitall, LineCollection, line in *. split.
  - intros sg (l & Hsg & _)%list_elem_of_bind.
    apply list_elem_of_lookup_1 in Hsg as [i Hi].
    apply segments_lookup in Hi as [Hlt ->]. by apply segment_length.
  - induction ls as [|l ls IH]; [done|].
    rewrite bind_cons, length_app, IH. simpl. f_equal.
    unfold segments. by rewrite length_fmap, length_seq.
Qed.

(** X19.  [splitall] makes lines of two points only, one for each point of a
    line but its last; a line of fewer than two points leaves nothing. *)
Theorem splitall_segments (ls : LineCollection) :
  (∀ sg, sg ∈ splitall ls → length sg = 2) ∧
  length (splitall ls) = sum_list_with (λ l, length l - 1) ls.
Proof. exact (segments_two ls). Qed.

Lemma splitall_segments_witness :
  length [Complex 0 0; Complex (q 101 100) 0] = 2 ∧
  length (splitall [scenario_merged]) = sum_list_with (λ l, length l - 1) [scenario_merged].
Proof.
  split.
  - apply (proj1 (splitall_segments [scenario_merged])). compute_done.
  - apply (proj2 (splitall_segments [scenario_merged])).
Defined.

Lemma half_double (x : Qc) : (half * (x + x) = x)%Qc.
Proof.
  assert (half * (1 + 1) = 1)%Qc as H by (apply Qc_is_canon; reflexivity).
  transitivity ((half * (1 + 1)) * x)%Qc; [ring|]. rewrite H. ring.
Qed.

Lemma midpoint_same (a : complex) : cscale half (cadd a a) = a.
Proof. destruct a as [x y]. unfold cscale, cadd. simpl. by rewrite !half_double. Qed.

(** Splicing a line of two points onto a chain that ends where it begins
    appends its second point. *)
Lemma splice_segment (c : line) (a b : complex) :
  splice (c ++ [a]) [a; b] = Ok (c ++ [a; b]).
Proof.
  unfold splice, line_last, line_first. rewrite last_snoc. simpl.
  rewrite midpoint_same, length_app. simpl.
  replace (length c + 1 - 1) with (length c) by lia.
  by rewrite take_app_length.
Qed.

Lemma join_segments (c : line) (a : complex) (l : line) :
  join_onto (c ++ [a]) (segments (a :: l)) = Ok (c ++ a :: l).
Proof.
  revert c a. induction l as [|b l IH]; intros c a; [done|].
  unfold segments. simpl length. replace (S (S (length l)) - 1) with (S (length l)) by lia.
  rewrite <- cons_seq, fmap_cons. simpl take.
  cbn [join_onto]. rewrite splice_segment. simpl.
  replace ((λ i, take 2 (drop i (a :: b :: l))) <$> seq 1 (length l))
    with (segments (b :: l)).
  - replace (c ++ [a; b]) with ((c ++ [a]) ++ [b]) by (by rewrite <- app_assoc).
    rewrite IH. by rewrite <- app_assoc.
  - unfold segments. simpl length. replace (S (length l) - 1) with (length l) by lia.
    rewrite <- (fmap_S_seq 0), <- list_fmap_compose. done.
Qed.

(** X20.  The lines that [splitall] makes of a line of two points or more,
    spliced one after the other as [linemerge] splices lines, give the
    line back. *)
Theorem splitall_join (l : line) :
  2 ≤ length l →
  ∃ first rest, splitall [l] = first :: rest ∧ join_onto first rest = Ok l.
Proof.
  intros Hlen. destruct l as [|a [|b l]]; simpl in Hlen; try lia.
  exists [a; b], (segments (b :: l)). split.
  - unfold splitall. rewrite bind_cons. change ([] ≫= segments) with (@nil line).
    rewrite app_nil_r. unfold segments. simpl length.
    replace (S (S (length l)) - 1) with (S (length l)) by lia.
    replace (S (length l) - 1) with (length l) by lia.
    rewrite <- cons_seq, fmap_cons. simpl take. f_equal.
    rewrite <- (fmap_S_seq 0), <- list_fmap_compose. done.
  - apply (join_segments [a] b l).
Qed.

Lemma splitall_join_witness :
  ∃ first rest, splitall [scenario_merged] = first :: rest ∧
                join_onto first rest = Ok scenario_merged.
Proof. apply (splitall_join scenario_merged). simpl. lia. Defined.

(** X21.  Splitting what was split changes nothing. *)
Theorem splitall_idempotent (ls : LineCollection) : splitall (splitall ls) = splitall ls.
Proof.
  assert (∀ c : list line, Forall (λ sg, length sg = 2) c → c ≫= segments = c) as Hid.
  { induction 1 as [|sg c Hsg _ IH]; [done|]. rewrite bind_cons, IH.
    destruct sg as [|a [|b [|? ?]]]; simpl in Hsg; try lia. done. }
  apply Hid, Forall_forall. apply segments_two.
Qed.

(** ** The index and its trees *)

Lemma mapM_lookup_fwd {A B : Type} (f : A → res B) (l : list A) (bs : list B)
    (j : nat) (a : A) :
  mapM f l = Ok bs → l !! j = Some a → ∃ b, bs !! j = Some b ∧ f a = Ok b.
Proof.
  revert bs j. induction l as [|a0 l IH]; intros bs j H Hj; simpl in H; [done|].
  bind_inv H. bind_inv H. injection H as <-.
  destruct j as [|j]; simpl in *.
  - injection Hj as <-. eauto.
  - eauto.
Qed.

Lemma make_index_synced (ls : list line) (rev : bool) (s : LineIndex) :
  _make_index ls rev = Ok s → synced s.
Proof.
  unfold _make_index. intros H.
  apply bind_Ok in H as (starts & Hst & H).
  apply bind_Ok in H as (idx & Hidx & H).
  apply bind_Ok in H as (ridx & Hridx & H).
  injection H as <-. apply KDTree_new_Ok in Hidx as [Hd _].
  split; simpl.
  - by rewrite length_replicate.
  - by rewrite Hd.
  - intros ->.
    apply bind_Ok in Hridx as (ends & Hen & H).
    apply bind_Ok in H as (t & Ht & H). injection H as <-.
    apply KDTree_new_Ok in Ht as [Ht _]. exists t. by rewrite Ht.
Qed.

Lemma reindex_synced (s s' : LineIndex) : _reindex s = Ok s' → synced s'.
Proof.
  unfold _reindex. intros H. apply bind_Ok in H as (ls & _ & H).
  by eapply make_index_synced.
Qed.

Lemma set_unavailable_synced (s : LineIndex) (i : nat) :
  synced s → synced (set_unavailable s i).
Proof. intros [Ha Hi Hr]. split; simpl; [by rewrite length_insert | done | done]. Qed.

Lemma within_loop_synced (fuel : nat) (s s' : LineIndex) (p : complex) (d : Qc)
    (idx ridx : option nat) (di rdi : Qc) :
  synced s → find_nearest_within_loop fuel s p d = Ok (idx, di, ridx, rdi, s') →
  synced s'.
Proof.
  revert s. induction fuel as [|fuel IH]; intros s Hs H; simpl in H; [done|].
  apply bind_Ok in H as ([[r1 i1] d1] & H1 & H).
  destruct r1.
  { apply bind_Ok in H as (s1 & Hs1%reindex_synced & H). by eapply IH. }
  destruct (reverse_index s).
  - apply bind_Ok in H as (t & Ht & H).
    apply bind_Ok in H as ([[r2 i2] d2] & H2 & H).
    destruct r2.
    + apply bind_Ok in H as (s1 & Hs1%reindex_synced & H). by eapply IH.
    + by simplify_eq.
  - by simplify_eq.
Qed.

Lemma nearest_loop_synced (fuel : nat) (s s' : LineIndex) (p : complex)
    (idx ridx : option nat) (di rdi : Qc) :
  synced s → find_nearest_loop fuel s p = Ok (idx, di, ridx, rdi, s') → synced s'.
Proof.
  revert s. induction fuel as [|fuel IH]; intros s Hs H; simpl in H; [done|].
  assert ((s1 ← _reindex s; find_nearest_loop fuel s1 p)
            = Ok (idx, di, ridx, rdi, s') → synced s') as Hre.
  { intros H'. apply bind_Ok in H' as (s1 & Hs1%reindex_synced & H'). by eapply IH. }
  apply bind_Ok in H as ([i1 d1] & H1 & H).
  destruct (reverse_index s).
  - apply bind_Ok in H as (t & Ht & H).
    apply bind_Ok in H as ([i2 d2] & H2 & H).
    destruct i2 as [j2|], i1 as [j1|]; try by apply Hre.
    by simplify_eq.
  - destruct i1 as [j1|]; [|by apply Hre]. by simplify_eq.
Qed.

(** ** Sorted answers of a tree *)

Global Instance by_dist_total : Total by_dist.
Proof. intros a b. unfold by_dist. apply (total Qcle). Qed.

Global Instance by_dist_trans : Transitive by_dist.
Proof. intros a b c. unfold by_dist. apply Qcle_trans. Qed.

Lemma hits_sorted (t : KDTree) (p : complex) (upper : option Qc) :
  StronglySorted by_dist (hits t p upper).
Proof. unfold hits. apply StronglySorted_merge_sort; apply _. Qed.

Lemma sorted_lookup {A : Type} (R : relation A) (l : list A) (a b : nat) (x y : A) :
  StronglySorted R l → l !! a = Some x → l !! b = Some y → a < b → R x y.
Proof.
  intros Hs. revert a b. induction Hs as [|z l Hs IH Hall]; intros a b Ha Hb Hlt; [done|].
  destruct b as [|b]; [lia|]. simpl in Hb.
  destruct a as [|a]; simpl in Ha.
  - injection Ha as ->. rewrite Forall_forall in Hall.
    apply Hall. by eapply list_elem_of_lookup_2.
  - apply (IH a b); [done | done | lia].
Qed.

Lemma hits_elem (t : KDTree) (p : complex) (upper : option Qc) (j : nat) (x : complex) :
  kd_data t !! j = Some x → within upper (dist2 x p) = true →
  (dist2 x p, j) ∈ hits t p upper.
Proof.
  intros Hj Hw. rewrite hits_perm. apply list_elem_of_filter. split.
  - simpl. by rewrite Hw.
  - apply elem_of_lookup_imap. eauto.
Qed.

Lemma argmax_first (l : list bool) (b : nat) :
  existsb id l = true → b < argmax l → l !! b = Some false.
Proof.
  revert b. induction l as [|[] l IH]; intros b Hex Hb; simpl in *; try lia.
  rewrite Hex in Hb. destruct b as [|b]; [done|]. simpl. apply IH; [done | lia].
Qed.

Lemma query_padded (t : KDTree) (p : complex) (k : nat) (upper : option Qc) :
  forallb id ((λ e : dist * nat, negb (isinf e.1)) <$> KDTree_query t p k upper) = false →
  length (hits t p upper) < k.
Proof.
  unfold KDTree_query. intros H.
  destruct (decide (length (hits t p upper) < k)) as [|Hge]; [done|].
  exfalso. rewrite length_take_le in H by lia.
  rewrite Nat.sub_diag, app_nil_r in H. simpl in H.
  revert H. generalize (take k (hits t p upper)). intros found.
  induction found as [|e found IH]; simpl; [done | auto].
Qed.

(** The candidates of a bounded search, in the order of the sample. *)
Lemma sample_flags (s : LineIndex) (hs : list (Qc * nat)) (c : list bool)
    (b : nat) (e : Qc * nat) (a : bool) :
  take_available s (hs.*2) = Ok c → hs !! b = Some e → available s !! e.2 = Some a →
  c !! b = Some a.
Proof.
  intros Hc Hb Ha.
  destruct (mapM_lookup_fwd _ _ _ b e.2 Hc) as (a' & Ha' & Hav).
  { by rewrite list_lookup_fmap, Hb. }
  apply orelse_Ok in Hav. congruence.
Qed.

(** The answer of a bounded search in a tree is at least as near as any
    available point of the tree within the bound. *)
Lemma within_in_index_nearest (s : LineIndex) (p : complex) (d : Qc) (t : KDTree)
    (i j : nat) (di : Qc) (x : complex) :
  _find_nearest_within_in_index s p d t = Ok (false, Some i, di) →
  kd_data t !! j = Some x → available s !! j = Some true →
  (dist2 x p < sq d)%Qc → (di ≤ dist2 x p)%Qc.
Proof.
  unfold _find_nearest_within_in_index. intros H Hj Ha Hd.
  apply bind_Ok in H as (c & Hc & H).
  destruct (_ && _); [done|].
  destruct (existsb id c) eqn:Hex; [|done].
  apply bind_Ok in H as (e & He%orelse_Ok & H). simplify_eq.
  rewrite finite_query in He, Hc.
  apply lookup_take_Some in He as [He Ha50].
  assert ((dist2 x p, j) ∈ hits t p (Some d)) as Hin.
  { apply hits_elem; [done|]. simpl. by apply bool_decide_eq_true_2. }
  apply list_elem_of_lookup_1 in Hin as [b Hb].
  destruct (lt_eq_lt_dec b (argmax c)) as [[Hlt|Heq]|Hgt].
  - exfalso. pose proof (argmax_first c b Hex Hlt) as Hfalse.
    assert (take 50 (hits t p (Some d)) !! b = Some (dist2 x p, j)) as Hb'.
    { rewrite lookup_take_lt by lia. done. }
    pose proof (sample_flags s _ c b _ true Hc Hb' Ha) as Htrue. congruence.
  - subst b. rewrite He in Hb. injection Hb as ->. simpl. apply Qcle_refl.
  - apply (sorted_lookup by_dist _ _ _ e (dist2 x p, j) (hits_sorted t p (Some d)) He Hb Hgt).
Qed.

Lemma existsb_false_forallb (l : list bool) : existsb id l = false → forallb negb l = true.
Proof. induction l as [|[] l IH]; simpl; intros H; [done | done | auto]. Qed.

(** A bounded search that finds nothing and asks for no rebuild has seen
    every point of the tree within the bound: none is available. *)
Lemma within_in_index_none (s : LineIndex) (p : complex) (d : Qc) (t : KDTree)
    (j : nat) (di : Qc) (x : complex) :
  _find_nearest_within_in_index s p d t = Ok (false, None, di) →
  kd_data t !! j = Some x → available s !! j = Some true →
  ¬ (dist2 x p < sq d)%Qc.
Proof.
  unfold _find_nearest_within_in_index. intros H Hj Ha Hd.
  apply bind_Ok in H as (c & Hc & H).
  destruct (existsb id c) eqn:Hex.
  { destruct (_ && _); [done|]. apply bind_Ok in H as (e & _ & H). by simplify_eq. }
  rewrite (existsb_false_forallb c Hex), andb_true_r in H.
  destruct (forallb id _) eqn:Hall; [done|].
  apply query_padded in Hall. rewrite finite_query in Hc.
  assert ((dist2 x p, j) ∈ hits t p (Some d)) as Hin.
  { apply hits_elem; [done|]. simpl. by apply bool_decide_eq_true_2. }
  apply list_elem_of_lookup_1 in Hin as [b Hb].
  assert (take 50 (hits t p (Some d)) !! b = Some (dist2 x p, j)) as Hb'.
  { rewrite lookup_take_lt; [done|]. apply lookup_lt_Some in Hb. lia. }
  pose proof (sample_flags s _ c b _ true Hc Hb' Ha) as Htrue.
  apply list_elem_of_lookup_2 in Htrue.
  assert (existsb id c = true) as Hex'.
  { clear -Htrue. induction c as [|[] c IH]; [by inversion Htrue | done |].
    simpl. apply IH. by inversion Htrue. }
  congruence.
Qed.

(** What a bounded search answers, in terms of the lines: [f] is
    [line_first] for the tree of the first points and [line_last] for the
    tree of the last points. *)
Lemma tree_answer (s : LineIndex) (p : complex) (d : Qc) (t : KDTree)
    (f : line → res complex) (r : option nat) (dr : Qc) :
  mapM f (lines s) = Ok (kd_data t) →
  _find_nearest_within_in_index s p d t = Ok (false, r, dr) →
  match r with
  | Some i =>
      (∃ l e, lines s !! i = Some l ∧ f l = Ok e ∧ dr = dist2 e p ∧
              (dist2 e p < sq d)%Qc ∧ available s !! i = Some true) ∧
      ∀ j l' e', lines s !! j = Some l' → available s !! j = Some true →
                 f l' = Ok e' → (dist2 e' p < sq d)%Qc → (dr ≤ dist2 e' p)%Qc
  | None =>
      ∀ j l' e', lines s !! j = Some l' → available s !! j = Some true →
                 f l' = Ok e' → ¬ (dist2 e' p < sq d)%Qc
  end.
Proof.
  intros Hdata H. destruct r as [i|].
  - split.
    + pose proof (within_in_index_Some _ _ _ _ _ _ _ H) as (_ & Ha & Hd & x & Hx & ->).
      destruct (mapM_lookup _ _ _ _ _ Hdata Hx) as (l & Hl & Hf). eauto 10.
    + intros j l' e' Hl' Ha' Hf' Hd'.
      destruct (mapM_lookup_fwd _ _ _ _ _ Hdata Hl') as (x & Hx & Hfx).
      assert (x = e') as -> by congruence.
      by eapply within_in_index_nearest.
  - intros j l' e' Hl' Ha' Hf' Hd'.
    destruct (mapM_lookup_fwd _ _ _ _ _ Hdata Hl') as (x & Hx & Hfx).
    assert (x = e') as -> by congruence.
    by eapply within_in_index_none.
Qed.

(** ** What the queries answer *)

Lemma within_answer (fuel : nat) (s s' : LineIndex) (p : complex)
    (max_dist : Qc) (idx : option nat) (rev : bool) :
  synced s →
  find_nearest_within fuel s p max_dist = Ok (idx, rev, s') →
  synced s' ∧ pending s' = pending s ∧
  match idx with
  | Some i =>
      ∃ l e, lines s' !! i = Some l ∧ available s' !! i = Some true ∧
             matched rev l = Ok e ∧ (dist2 e p < sq max_dist)%Qc ∧
             ∀ j l' e', lines s' !! j = Some l' → available s' !! j = Some true →
                        matchable s' l' e' → (dist2 e' p < sq max_dist)%Qc →
                        (dist2 e p ≤ dist2 e' p)%Qc
  | None =>
      ∀ j l' e', lines s' !! j = Some l' → available s' !! j = Some true →
                 matchable s' l' e' → ¬ (dist2 e' p < sq max_dist)%Qc
  end.
Proof.
  intros Hs H.
  pose proof (find_nearest_within_Ok _ _ _ _ _ _ _ H) as ([_ Hp _] & _ & _).
  unfold find_nearest_within in H.
  apply bind_Ok in H as ([[[[i1 d1] i2] d2] s1] & Hloop & H).
  pose proof (within_loop_synced _ _ _ _ _ _ _ _ _ Hs Hloop) as Hs1.
  apply within_loop_Ok in Hloop as (_ & H1 & H2).
  pose proof (tree_answer _ _ _ _ line_first _ _ (synced_index s1 Hs1) H1) as A1.
  destruct (reverse_index s1) eqn:Hrev.
  - destruct H2 as (t & Ht & H2).
    destruct (synced_rindex s1 Hs1 Hrev) as (t' & Ht' & Hends).
    assert (t' = t) as -> by congruence.
    pose proof (tree_answer _ _ _ _ line_last _ _ Hends H2) as A2.
    destruct i1 as [a|], i2 as [b|].
    + destruct A1 as [(l1 & e1 & Hl1 & Hf1 & -> & Hd1 & Ha1) N1].
      destruct A2 as [(l2 & e2 & Hl2 & Hf2 & -> & Hd2 & Ha2) N2].
      case_bool_decide as Hcmp; simplify_eq; (split; [done|]); (split; [done|]).
      * exists l2, e2. repeat (split; [done|]).
        intros j l' e' Hl' Ha' [Hm|[_ Hm]] Hd'.
        -- eapply Qcle_trans; [apply Qclt_le_weak, Hcmp|]. by eapply N1.
        -- by eapply N2.
      * exists l1, e1. repeat (split; [done|]).
        intros j l' e' Hl' Ha' [Hm|[_ Hm]] Hd'.
        -- by eapply N1.
        -- eapply Qcle_trans; [by apply Qcnot_lt_le|]. by eapply N2.
    + destruct A1 as [(l1 & e1 & Hl1 & Hf1 & -> & Hd1 & Ha1) N1].
      simplify_eq. split; [done|]. split; [done|].
      exists l1, e1. repeat (split; [done|]).
      intros j l' e' Hl' Ha' [Hm|[_ Hm]] Hd'; [by eapply N1|].
      by destruct (A2 j l' e').
    + destruct A2 as [(l2 & e2 & Hl2 & Hf2 & -> & Hd2 & Ha2) N2].
      simplify_eq. split; [done|]. split; [done|].
      exists l2, e2. repeat (split; [done|]).
      intros j l' e' Hl' Ha' [Hm|[_ Hm]] Hd'; [|by eapply N2].
      by destruct (A1 j l' e').
    + simplify_eq. split; [done|]. split; [done|].
      intros j l' e' Hl' Ha' [Hm|[_ Hm]]; [by eapply A1 | by eapply A2].
  - simplify_eq. split; [done|]. split; [done|].
    destruct idx as [a|].
    + destruct A1 as [(l1 & e1 & Hl1 & Hf1 & -> & Hd1 & Ha1) N1].
      exists l1, e1. repeat (split; [done|]).
      intros j l' e' Hl' Ha' [Hm|[Hr _]] Hd'; [by eapply N1 | congruence].
    + intros j l' e' Hl' Ha' [Hm|[Hr _]]; [by eapply A1 | congruence].
Qed.

(** X5.  A bounded query on an index answers a line that is available, by
    a point of it that lies strictly within the bound and at least as near
    as every point by which an available line could be matched within the
    bound; it answers nothing only when no available line has such a
    point.  The index it leaves holds the same lines to be consumed. *)
Theorem find_nearest_within_nearest (fuel : nat) (s s' : LineIndex) (p : complex)
    (max_dist : Qc) (idx : option nat) (rev : bool) :
  synced s →
  find_nearest_within fuel s p max_dist = Ok (idx, rev, s') →
  synced s' ∧ pending s' = pending s ∧
  match idx with
  | Some i =>
      ∃ l e, lines s' !! i = Some l ∧ available s' !! i = Some true ∧
             matched rev l = Ok e ∧ (dist2 e p < sq max_dist)%Qc ∧
             ∀ j l' e', lines s' !! j = Some l' → available s' !! j = Some true →
                        matchable s' l' e' → (dist2 e' p < sq max_dist)%Qc →
                        (dist2 e p ≤ dist2 e' p)%Qc
  | None =>
      ∀ j l' e', lines s' !! j = Some l' → available s' !! j = Some true →
                 matchable s' l' e' → ¬ (dist2 e' p < sq max_dist)%Qc
  end.
Proof. exact (within_answer fuel s s' p max_dist idx rev). Qed.

Lemma scenario_index_synced : synced scenario_index.
Proof.
  apply (make_index_synced scenario true). vm_compute. reflexivity.
Qed.

Lemma find_nearest_within_nearest_witness :
  synced scenario_index ∧ pending scenario_index = pending scenario_index ∧
  ∃ l e, lines scenario_index !! 0 = Some l ∧ available scenario_index !! 0 = Some true ∧
         matched true l = Ok e ∧ (dist2 e (Complex 1 0) < sq scenario_tolerance)%Qc ∧
         ∀ j l' e', lines scenario_index !! j = Some l' →
                    available scenario_index !! j = Some true →
                    matchable scenario_index l' e' →
                    (dist2 e' (Complex 1 0) < sq scenario_tolerance)%Qc →
                    (dist2 e (Complex 1 0) ≤ dist2 e' (Complex 1 0))%Qc.
Proof.
  apply (find_nearest_within_nearest 2 scenario_index scenario_index (Complex 1 0)
           scenario_tolerance (Some 0) true scenario_index_synced).
  vm_compute. reflexivity.
Defined.

(** ** The unbounded query *)

Lemma first_available_first (s : LineIndex) (r : list (dist * nat)) (i : nat) (d : Qc) :
  first_available s r = Ok (Some i, d) →
  ∃ a, finite r !! a = Some (d, i) ∧
       ∀ b e, b < a → finite r !! b = Some e → available s !! e.2 = Some false.
Proof.
  induction r as [|[[d'|] i'] r IH]; simpl; intros H; [done | | auto].
  apply bind_Ok in H as (av & Hav%orelse_Ok & H). destruct av.
  - simplify_eq. exists 0. split; [done|]. intros b e Hb. lia.
  - destruct (IH H) as (a & Ha & Hbefore). exists (S a). split; [done|].
    intros [|b] e Hb He; simpl in He.
    + by simplify_eq.
    + apply (Hbefore b); [lia | done].
Qed.

(** The answer of an unbounded search in a tree is available, and at
    least as near as any available point of the tree. *)
Lemma nearest_in_index_nearest (s : LineIndex) (p : complex) (t : KDTree)
    (i : nat) (di : Qc) :
  _find_nearest_in_index s p t = Ok (Some i, di) →
  (∃ x, kd_data t !! i = Some x ∧ di = dist2 x p) ∧
  ∀ j x, kd_data t !! j = Some x → available s !! j = Some true →
         (di ≤ dist2 x p)%Qc.
Proof.
  unfold _find_nearest_in_index. intros H.
  apply first_available_first in H as (a & Ha & Hbefore).
  rewrite finite_query in Ha, Hbefore.
  apply lookup_take_Some in Ha as [Ha Ha100]. split.
  - apply list_elem_of_lookup_2, hits_bound in Ha as (_ & _ & x & Hx & Hd). eauto.
  - intros j x Hj Hav.
    assert ((dist2 x p, j) ∈ hits t p None) as Hin by (by apply hits_elem).
    apply list_elem_of_lookup_1 in Hin as [b Hb].
    destruct (lt_eq_lt_dec b a) as [[Hlt|Heq]|Hgt].
    + exfalso. assert (take 100 (hits t p None) !! b = Some (dist2 x p, j)) as Hb'.
      { rewrite lookup_take_lt by lia. done. }
      specialize (Hbefore b _ Hlt Hb'). simpl in Hbefore. congruence.
    + subst b. rewrite Ha in Hb. injection Hb as ->. apply Qcle_refl.
    + apply (sorted_lookup by_dist _ _ _ (di, i) (dist2 x p, j)
               (hits_sorted t p None) Ha Hb Hgt).
Qed.

Lemma tree_nearest (s : LineIndex) (p : complex) (t : KDTree)
    (f : line → res complex) (i : nat) (di : Qc) :
  mapM f (lines s) = Ok (kd_data t) →
  _find_nearest_in_index s p t = Ok (Some i, di) →
  (∃ l e, lines s !! i = Some l ∧ f l = Ok e ∧ di = dist2 e p) ∧
  ∀ j l' e', lines s !! j = Some l' → available s !! j = Some true →
             f l' = Ok e' → (di ≤ dist2 e' p)%Qc.
Proof.
  intros Hdata H. apply nearest_in_index_nearest in H as [(x & Hx & ->) Hnear]. split.
  - destruct (mapM_lookup _ _ _ _ _ Hdata Hx) as (l & Hl & Hf). eauto.
  - intros j l' e' Hl' Ha' Hf'.
    destruct (mapM_lookup_fwd _ _ _ _ _ Hdata Hl') as (x' & Hx' & Hfx).
    assert (x' = e') as -> by congruence. by eapply Hnear.
Qed.

Lemma nearest_loop_results (fuel : nat) (s s' : LineIndex) (p : complex)
    (idx ridx : option nat) (di rdi : Qc) :
  find_nearest_loop fuel s p = Ok (idx, di, ridx, rdi, s') →
  (∃ i, idx = Some i ∧ _find_nearest_in_index s' p (index s') = Ok (Some i, di)) ∧
  (reverse_index s' = true →
   ∃ t j, rindex s' = Some t ∧ ridx = Some j ∧
          _find_nearest_in_index s' p t = Ok (Some j, rdi)).
Proof.
  revert s. induction fuel as [|fuel IH]; intros s H; simpl in H; [done|].
  assert ((s1 ← _reindex s; find_nearest_loop fuel s1 p)
            = Ok (idx, di, ridx, rdi, s') →
    (∃ i, idx = Some i ∧ _find_nearest_in_index s' p (index s') = Ok (Some i, di)) ∧
    (reverse_index s' = true →
     ∃ t j, rindex s' = Some t ∧ ridx = Some j ∧
            _find_nearest_in_index s' p t = Ok (Some j, rdi))) as Hre.
  { intros H'. apply bind_Ok in H' as (s1 & _ & H'). by eapply IH. }
  apply bind_Ok in H as ([i1 d1] & H1 & H).
  destruct (reverse_index s) eqn:Hrev.
  - apply bind_Ok in H as (t & Ht%orelse_Ok & H).
    apply bind_Ok in H as ([i2 d2] & H2 & H).
    destruct i2 as [j2|], i1 as [j1|]; try by apply Hre.
    simplify_eq. split; [eauto|]. intros _. eauto 10.
  - destruct i1 as [j1|]; [|by apply Hre].
    simplify_eq. split; [eauto|]. intros ?. congruence.
Qed.

Lemma nearest_answer (fuel : nat) (s s' : LineIndex) (p : complex)
    (idx : option nat) (rev : bool) :
  synced s →
  find_nearest fuel s p = Ok (idx, rev, s') →
  synced s' ∧ pending s' = pending s ∧
  ∃ i l e, idx = Some i ∧ lines s' !! i = Some l ∧ available s' !! i = Some true ∧
           matched rev l = Ok e ∧
           ∀ j l' e', lines s' !! j = Some l' → available s' !! j = Some true →
                      matchable s' l' e' → (dist2 e p ≤ dist2 e' p)%Qc.
Proof.
  intros Hs H.
  pose proof (find_nearest_Ok _ _ _ _ _ _ H) as ([_ Hp _] & _ & _).
  unfold find_nearest in H.
  apply bind_Ok in H as ([[[[i1 d1] i2] d2] s1] & Hloop & H).
  pose proof (nearest_loop_synced _ _ _ _ _ _ _ _ Hs Hloop) as Hs1.
  pose proof (nearest_loop_Ok _ _ _ _ _ _ _ _ Hloop) as (_ & (a & Hi1 & Ha1) & Hav2).
  apply nearest_loop_results in Hloop as [(a' & Ha' & H1) H2].
  assert (a' = a) as -> by congruence. subst i1.
  destruct (tree_nearest _ _ _ line_first _ _ (synced_index s1 Hs1) H1)
    as [(l1 & e1 & Hl1 & Hf1 & ->) N1].
  destruct (reverse_index s1) eqn:Hrev.
  - destruct (H2 eq_refl) as (t & b & Ht & -> & H2').
    destruct Hav2 as (b' & Hb' & Hab). assert (b' = b) as -> by congruence.
    destruct (synced_rindex s1 Hs1 Hrev) as (t' & Ht' & Hends).
    assert (t' = t) as -> by congruence.
    destruct (tree_nearest _ _ _ line_last _ _ Hends H2')
      as [(l2 & e2 & Hl2 & Hf2 & ->) N2].
    case_bool_decide as Hcmp; simplify_eq; (split; [done|]); (split; [done|]).
    + exists b, l2, e2. repeat (split; [done|]).
      intros j l' e' Hl' Ha'' [Hm|[_ Hm]].
      * eapply Qcle_trans; [apply Qclt_le_weak, Hcmp|]. by eapply N1.
      * by eapply N2.
    + exists a, l1, e1. repeat (split; [done|]).
      intros j l' e' Hl' Ha'' [Hm|[_ Hm]].
      * by eapply N1.
      * eapply Qcle_trans; [by apply Qcnot_lt_le|]. by eapply N2.
  - simplify_eq. split; [done|]. split; [done|].
    exists a, l1, e1. repeat (split; [done|]).
    intros j l' e' Hl' Ha'' [Hm|[Hr _]]; [by eapply N1 | congruence].
Qed.

(** X6.  An unbounded query answers an available line, by a point of it that
    is at least as near as every point by which an available line could
    be matched.  The index it leaves holds the same lines to be
    consumed. *)
Theorem find_nearest_nearest (fuel : nat) (s s' : LineIndex) (p : complex)
    (idx : option nat) (rev : bool) :
  synced s →
  find_nearest fuel s p = Ok (idx, rev, s') →
  synced s' ∧ pending s' = pending s ∧
  ∃ i l e, idx = Some i ∧ lines s' !! i = Some l ∧ available s' !! i = Some true ∧
           matched rev l = Ok e ∧
           ∀ j l' e', lines s' !! j = Some l' → available s' !! j = Some true →
                      matchable s' l' e' → (dist2 e p ≤ dist2 e' p)%Qc.
Proof. exact (nearest_answer fuel s s' p idx rev). Qed.

Lemma find_nearest_nearest_witness :
  synced scenario_index ∧ pending scenario_index = pending scenario_index ∧
  ∃ i l e, Some 0 = Some i ∧ lines scenario_index !! i = Some l ∧
           available scenario_index !! i = Some true ∧ matched true l = Ok e ∧
           ∀ j l' e', lines scenario_index !! j = Some l' →
                      available scenario_index !! j = Some true →
                      matchable scenario_index l' e' →
                      (dist2 e (Complex 1 0) ≤ dist2 e' (Complex 1 0))%Qc.
Proof.
  apply (find_nearest_nearest 2 scenario_index scenario_index (Complex 1 0)
           (Some 0) true scenario_index_synced).
  vm_compute. reflexivity.
Defined.

(** ** Building an index, and removing lines from it *)

Lemma mapM_first_cases (f : line → res complex) (ls : list line) :
  (∀ l, l ≠ [] → ∃ e, f l = Ok e) → f [] = Raise IndexError →
  (([] ∈ ls) ∧ mapM f ls = Raise IndexError) ∨
  (([] ∉ ls) ∧ ∃ es, mapM f ls = Ok es ∧ length es = length ls).
Proof.
  intros Hok Hempty. induction ls as [|l ls IH].
  - right. split; [by inversion 1|]. by exists [].
  - destruct l as [|a l].
    + left. split; [constructor|]. simpl. by rewrite Hempty.
    + destruct (Hok (a :: l)) as [e He]; [done|].
      destruct IH as [[Hin Hr]|[Hnin (es & Hes & Hlen)]].
      * left. split; [by constructor|]. simpl. by rewrite He, Hr.
      * right. split.
        -- intros [?|?]%elem_of_cons; done.
        -- exists (e :: es). simpl. rewrite He, Hes. simpl. by rewrite Hlen.
Qed.

Lemma line_first_nonempty (l : line) : l ≠ [] → ∃ e, line_first l = Ok e.
Proof. destruct l as [|a l]; [done|]. intros _. by exists a. Qed.

Lemma line_last_nonempty (l : line) : l ≠ [] → ∃ e, line_last l = Ok e.
Proof.
  intros Hl. unfold line_last. destruct (last l) eqn:E; [by eauto|].
  by apply last_None in E.
Qed.

Lemma init_outcomes (ls : list line) (rev : bool) :
  (ls = [] → LineIndex_init ls rev = Raise ValueError) ∧
  ([] ∈ ls → LineIndex_init ls rev = Raise IndexError) ∧
  (ls ≠ [] → [] ∉ ls →
   ∃ s, LineIndex_init ls rev = Ok s ∧ lines s = ls ∧ reverse_index s = rev ∧
        available s = replicate (length ls) true ∧ len s = length ls ∧
        pending s = ls ∧ synced s).
Proof.
  split; [|split].
  - intros ->. by destruct rev.
  - intros Hin. unfold LineIndex_init, _make_index.
    destruct (mapM_first_cases line_first ls line_first_nonempty eq_refl)
      as [[_ ->]|[Hnin _]]; done.
  - intros Hne Hnin.
    assert (∃ s, LineIndex_init ls rev = Ok s) as [s Hs].
    { unfold LineIndex_init, _make_index.
      destruct (mapM_first_cases line_first ls line_first_nonempty eq_refl)
        as [[? _]|[_ (starts & -> & Hlen)]]; [done|].
      destruct (mapM_first_cases line_last ls line_last_nonempty eq_refl)
        as [[? _]|[_ (ends & -> & Hlen')]]; [done|].
      destruct starts as [|e0 starts]; [by destruct ls|].
      destruct ends as [|e1 ends]; [by destruct ls|].
      destruct rev; simpl; eauto. }
    exists s. split; [done|].
    pose proof (make_index_Ok _ _ _ Hs) as (Hl & Hr & Hf).
    pose proof (init_Ok _ _ _ Hs) as (_ & Hp & Hlen).
    repeat (split; [done|]). split; [by rewrite (fresh_available s Hf), Hl|].
    repeat (split; [done|]). by eapply make_index_synced.
Qed.

(** X1.  [LineIndex(lines, reverse)] raises [ValueError] on no line at all and
    [IndexError] when a line has no point; otherwise it gives an index of
    these lines in which every line is available. *)
Theorem LineIndex_init_cases (ls : list line) (rev : bool) :
  (ls = [] → LineIndex_init ls rev = Raise ValueError) ∧
  ([] ∈ ls → LineIndex_init ls rev = Raise IndexError) ∧
  (ls ≠ [] → [] ∉ ls →
   ∃ s, LineIndex_init ls rev = Ok s ∧ lines s = ls ∧ reverse_index s = rev ∧
        available s = replicate (length ls) true ∧ len s = length ls ∧
        pending s = ls ∧ synced s).
Proof. exact (init_outcomes ls rev). Qed.

Lemma LineIndex_init_cases_witness :
  LineIndex_init [] true = Raise ValueError ∧
  LineIndex_init [seg 0 0 1 0; []] true = Raise IndexError ∧
  ∃ s, LineIndex_init scenario true = Ok s ∧ lines s = scenario ∧
       reverse_index s = true ∧ available s = replicate (length scenario) true ∧
       len s = length scenario ∧ pending s = scenario ∧ synced s.
Proof.
  split; [|split].
  - by apply (proj1 (LineIndex_init_cases [] true)).
  - apply (proj1 (proj2 (LineIndex_init_cases [seg 0 0 1 0; []] true))).
    compute_done.
  - apply (proj2 (proj2 (LineIndex_init_cases scenario true))); [done|].
    compute_done.
Defined.

Lemma pop_takes (s : LineIndex) (idx : nat) (l : line) :
  available s !! idx = Some true → lines s !! idx = Some l →
  pop s idx = Ok (Some l, set_unavailable s idx) ∧
  len s = S (len (set_unavailable s idx)) ∧
  pending s ≡ₚ l :: pending (set_unavailable s idx) ∧
  (∀ j, j ≠ idx → available (set_unavailable s idx) !! j = available s !! j) ∧
  pop (set_unavailable s idx) idx = Ok (None, set_unavailable s idx).
Proof.
  intros Ha Hl. split; [|split; [|split; [|split]]].
  - unfold pop. by rewrite Ha, Hl.
  - by apply remove_len.
  - by apply remove_pending.
  - intros j Hj. simpl. by apply list_lookup_insert_ne.
  - unfold pop. simpl. rewrite list_lookup_insert_eq; [done|].
    by eapply lookup_lt_Some.
Qed.

(** X2.  [pop(idx)] of an available entry answers its line and flags that
    entry only: one available entry less, the other lines still to be
    consumed, and a second [pop(idx)] answers [None]. *)
Theorem pop_available (s : LineIndex) (idx : nat) (l : line) :
  available s !! idx = Some true → lines s !! idx = Some l →
  pop s idx = Ok (Some l, set_unavailable s idx) ∧
  len s = S (len (set_unavailable s idx)) ∧
  pending s ≡ₚ l :: pending (set_unavailable s idx) ∧
  (∀ j, j ≠ idx → available (set_unavailable s idx) !! j = available s !! j) ∧
  pop (set_unavailable s idx) idx = Ok (None, set_unavailable s idx).
Proof. exact (pop_takes s idx l). Qed.

Lemma pop_available_witness :
  pop scenario_index 1 = Ok (Some (seg (q 102 100) 0 (q 2 1) 0), set_unavailable scenario_index 1) ∧
  len scenario_index = S (len (set_unavailable scenario_index 1)) ∧
  pending scenario_index
    ≡ₚ seg (q 102 100) 0 (q 2 1) 0 :: pending (set_unavailable scenario_index 1) ∧
  (∀ j, j ≠ 1 → available (set_unavailable scenario_index 1) !! j
                = available scenario_index !! j) ∧
  pop (set_unavailable scenario_index 1) 1 = Ok (None, set_unavailable scenario_index 1).
Proof.
  apply (pop_available scenario_index 1 (seg (q 102 100) 0 (q 2 1) 0)); reflexivity.
Defined.

Lemma pending_of_first (ls : list line) (av : list bool) (i : nat) (l : line) :
  ls !! i = Some l → av !! i = Some true → (∀ j, j < i → av !! j = Some false) →
  pending_of ls av = l :: pending_of ls (<[i := false]> av).
Proof.
  revert av i. induction ls as [|l0 ls IH]; intros [|a av] [|i] Hl Ha Hb; simpl in *;
    try done.
  - by simplify_eq.
  - assert (a = false) as ->.
    { specialize (Hb 0). simpl in Hb. assert (Some a = Some false) by (apply Hb; lia).
      congruence. }
    apply IH; [done | done |]. intros j Hj. apply (Hb (S j)). lia.
Qed.

Lemma pop_front_takes (s : LineIndex) :
  (∀ l s', pop_front s = Ok (Some l, s') →
     pending s = l :: pending s' ∧ len s = S (len s') ∧ lines s' = lines s) ∧
  (length (available s) ≤ length (lines s) → 0 < len s →
   ∃ l s', pop_front s = Ok (Some l, s')).
Proof.
  split.
  - intros l s' H. unfold pop_front in H.
    destruct (len s =? 0) eqn:Hlen; [done|]. apply Nat.eqb_neq in Hlen.
    apply bind_Ok in H as (l' & Hl%orelse_Ok & H). simplify_eq.
    pose proof (count_nonzero_pos _ Hlen) as Hex.
    pose proof (argmax_lookup _ Hex) as Ha.
    split; [|split; [by apply remove_len | done]].
    unfold pending. simpl. apply pending_of_first; [done | done |].
    intros j Hj. by apply argmax_first.
  - intros Hle Hlen. unfold pop_front.
    destruct (len s =? 0) eqn:E; [apply Nat.eqb_eq in E; lia|].
    assert (len s ≠ 0) as Hne by lia.
    pose proof (argmax_lookup _ (count_nonzero_pos _ Hne)) as Ha.
    apply lookup_lt_Some in Ha.
    destruct (lookup_lt_is_Some_2 (lines s) (argmax (available s))) as [l Hl]; [lia|].
    rewrite Hl. simpl. eauto.
Qed.

(** X3.  [pop_front()] answers the first of the lines still to be consumed,
    and leaves the others; it answers a line whenever one is available. *)
Theorem pop_front_first (s : LineIndex) :
  (∀ l s', pop_front s = Ok (Some l, s') →
     pending s = l :: pending s' ∧ len s = S (len s') ∧ lines s' = lines s) ∧
  (length (available s) ≤ length (lines s) → 0 < len s →
   ∃ l s', pop_front s = Ok (Some l, s')).
Proof. exact (pop_front_takes s). Qed.

Lemma pop_front_first_witness :
  (pending first_removed
     = seg (q 102 100) 0 (q 2 1) 0 :: pending (set_unavailable first_removed 1) ∧
   len first_removed = S (len (set_unavailable first_removed 1)) ∧
   lines (set_unavailable first_removed 1) = lines first_removed) ∧
  ∃ l s', pop_front first_removed = Ok (Some l, s').
Proof.
  split.
  - apply (proj1 (pop_front_first first_removed)). reflexivity.
  - apply (proj2 (pop_front_first first_removed)); vm_compute; lia.
Defined.

(** X4.  An index that keeps no end points never answers a match by an end
    point. *)
Theorem no_end_index_never_reverses (fuel : nat) (s s' : LineIndex) (p : complex)
    (max_dist : Qc) (idx : option nat) (rev : bool) :
  reverse_index s = false →
  (find_nearest_within fuel s p max_dist = Ok (idx, rev, s') → rev = false) ∧
  (find_nearest fuel s p = Ok (idx, rev, s') → rev = false).
Proof.
  intros Hrev. split.
  - intros (_ & _ & H)%find_nearest_within_Ok. by apply H.
  - intros (_ & _ & H)%find_nearest_Ok. by apply H.
Qed.

Lemma no_end_index_never_reverses_witness : false = false ∧ false = false.
Proof.
  split.
  - apply (proj1 (no_end_index_never_reverses 2 first_removed first_removed (Complex 1 0)
                    scenario_tolerance (Some 1) false eq_refl)).
    vm_compute. reflexivity.
  - apply (proj2 (no_end_index_never_reverses 2 first_removed first_removed (Complex 1 0)
                    scenario_tolerance (Some 1) false eq_refl)).
    vm_compute. reflexivity.
Defined.

(** ** The unbounded query finds a line *)

Lemma select_total (ls : list line) (av : list bool) :
  length ls ≤ length av → select ls av = Ok (pending_of ls av).
Proof.
  revert av. induction ls as [|l ls IH]; intros [|a av] H; simpl in *; try done; try lia.
  rewrite IH by lia. by destruct a.
Qed.

Lemma synced_lines_nonempty (s : LineIndex) (l : line) : synced s → l ∈ lines s → l ≠ [].
Proof.
  intros Hs [i Hi]%list_elem_of_lookup_1 ->.
  destruct (mapM_lookup_fwd _ _ _ _ _ (synced_index s Hs) Hi) as (e & _ & He). done.
Qed.

Lemma synced_index_length (s : LineIndex) :
  synced s → length (kd_data (index s)) = length (lines s).
Proof. intros Hs. pose proof (synced_index s Hs) as H. by apply mapM_length in H. Qed.









(** ** The tour of linesort *)

Lemma pending_of_lookup (ls : list line) (av : list bool) (l : line) :
  l ∈ pending_of ls av → ∃ j, ls !! j = Some l ∧ av !! j = Some true.
Proof.
  revert av. induction ls as [|l0 ls IH]; intros [|a av]; simpl; try by inversion 1.
  destruct a.
  - intros [->|H]%elem_of_cons; [by exists 0|].
    destruct (IH av H) as (j & Hj & Ha). by exists (S j).
  - intros H. destruct (IH av H) as (j & Hj & Ha). by exists (S j).
Qed.

Lemma line_first_flip (l : line) : line_first (flip l) = line_last l.
Proof. unfold line_first, line_last, flip. by rewrite head_reverse. Qed.

Lemma line_last_flip (l : line) : line_last (flip l) = line_first l.
Proof. unfold line_first, line_last, flip. by rewrite last_reverse. Qed.

Lemma flip_nonempty (l : line) : l ≠ [] → flip l ≠ [].
Proof.
  intros Hl Hf. apply Hl. apply nil_length_inv.
  by rewrite <- (flip_length l), Hf.
Qed.

(** What the loop of [linesort] appends. *)
Lemma sort_loop_spec (fuel steps : nat) (s : LineIndex) (acc out : LineCollection)
    (cur : line) (e : complex) :
  synced s → last acc = Some cur → line_last cur = Ok e →
  sort_loop fuel steps s acc = Ok out →
  ∃ rest orig,
    out = acc ++ rest ∧ orig ≡ₚ pending s ∧
    Forall2 (λ o l, o = l ∨ (reverse_index s = true ∧ o = flip l)) rest orig ∧
    greedy (reverse_index s) e rest.
Proof.
  revert s acc cur e. induction steps as [|steps IH]; intros s acc cur e Hs Hcur He H;
    simpl in H; [done|].
  destruct (0 <? len s) eqn:Hlen.
  2:{ apply Nat.ltb_ge in Hlen. simplify_eq. exists [], [].
      rewrite app_nil_r, len_zero_pending by lia.
      split; [done|]. split; [done|]. split; constructor. }
  rewrite Hcur in H. simpl in H. rewrite He in H. simpl in H.
  apply bind_Ok in H as ([[idx rev] s1] & Hfind & H).
  pose proof (find_nearest_Ok _ _ _ _ _ _ Hfind) as ([Hr1 _ _] & _ & Hnorev).
  apply nearest_answer in Hfind
    as (Hs1 & Hp1 & i & l & em & -> & Hl & Ha & Hm & Hnear); [|done].
  simpl in H.
  apply bind_Ok in H as ([popped s2] & Hpop & H).
  apply bind_Ok in H as (l' & ->%orelse_Ok & H).
  apply pop_Some in Hpop as (_ & Hl' & ->).
  assert (l' = l) as -> by congruence.
  pose proof (remove_pending s1 i l Ha Hl) as Hperm.
  assert (l ≠ []) as Hne.
  { eapply synced_lines_nonempty; [done|]. by eapply list_elem_of_lookup_2. }
  set (b := if rev then flip l else l) in *.
  assert (b ≠ []) as Hbne by (unfold b; destruct rev; [by apply flip_nonempty | done]).
  destruct (line_last_nonempty b Hbne) as [eb Heb].
  apply (IH _ _ b eb) in H as (rest & orig & -> & Horig & Hall & Hgreedy);
    [| by apply set_unavailable_synced | by rewrite last_snoc | done].
  simpl in Hall, Hgreedy. rewrite Hr1 in Hall, Hgreedy.
  assert (b = l ∨ (reverse_index s = true ∧ b = flip l)) as Hb.
  { unfold b. destruct rev; [|by left]. right. split; [|done].
    destruct (reverse_index s); [done|]. by discriminate Hnorev. }
  exists (b :: rest), (l :: orig). rewrite <- app_assoc.
  split; [done|]. split; [by rewrite <- Hp1, Hperm, Horig|].
  split; [by constructor|].
  assert (line_first b = Ok em) as Hfb.
  { unfold b. destruct rev; [by rewrite line_first_flip | done]. }
  eapply greedy_cons; [done | done | | done].
  intros c e' Hc He'.
  assert (∃ l'', l'' ∈ l :: orig ∧ (c = l'' ∨ (reverse_index s = true ∧ c = flip l'')))
    as (l'' & Hin & Hcl).
  { apply elem_of_cons in Hc as [->|Hc]; [exists l; split; [constructor | done]|].
    apply list_elem_of_lookup_1 in Hc as [k Hk].
    destruct (Forall2_lookup_l _ _ _ _ _ Hall Hk) as (l'' & Hl'' & Hrel).
    exists l''. split; [|done]. right. by eapply list_elem_of_lookup_2. }
  rewrite Horig, <- Hperm in Hin.
  apply pending_of_lookup in Hin as (j & Hj & Haj).
  apply (Hnear j l'' e'); [done | done |].
  unfold matchable. rewrite Hr1.
  destruct Hcl as [->|[Hrev ->]], He' as [Hf|[Hrev' Hlast]].
  - by left.
  - by right.
  - right. by rewrite line_first_flip in Hf.
  - left. by rewrite line_last_flip in Hlast.
Qed.

Lemma linesort_structure (ls out : LineCollection) (no_flip : bool) :
  linesort ls no_flip = Ok out →
  ∃ rest orig,
    out = take 1 ls ++ rest ∧ orig ≡ₚ drop 1 ls ∧
    Forall2 (λ o l, o = l ∨ (no_flip = false ∧ o = flip l)) rest orig ∧
    ∀ l0 e0, head ls = Some l0 → line_last l0 = Ok e0 → greedy (negb no_flip) e0 rest.
Proof.
  unfold linesort, linesort_fuel. destruct ls as [|l0 [|l1 ls]].
  - intros H. simplify_eq. exists [], []. repeat split; try constructor.
  - intros H. simplify_eq. exists [], []. repeat split; try constructor.
  - intros H. apply bind_Ok in H as (s & Hs & H).
    pose proof (init_Ok _ _ _ Hs) as (Hr & Hp & Hlen).
    apply make_index_synced in Hs.
    assert (∃ e, line_last l0 = Ok e) as [e He].
    { destruct l0 as [|a l0]; [|by apply line_last_nonempty].
      unfold fuel_for in H. simpl in H, Hlen.
      rewrite Hlen in H. simpl in H. done. }
    apply (sort_loop_spec _ _ _ _ _ l0 e) in H
      as (rest & orig & -> & Horig & Hall & Hgreedy); [|done..].
    rewrite Hr in Hall, Hgreedy. rewrite Hp in Horig.
    exists rest, orig. split; [done|]. split; [done|]. split.
    + eapply Forall2_impl; [done|]. intros o l [->|[Hnf ->]]; [by left | right].
      split; [by destruct no_flip | done].
    + intros l0' e0 Hl0 He0. simpl in Hl0. simplify_eq.
      assert (e0 = e) as -> by congruence. done.
Qed.

(** X13.  Whatever the flag, [linesort] outputs the first line of its input as
    it is, followed by the other lines of the input in some order, each
    as it is or, when flipping is allowed, flipped: as many lines and as
    many points as in the input. *)
Theorem linesort_rearranges (ls out : LineCollection) (no_flip : bool) :
  linesort ls no_flip = Ok out →
  (∃ rest orig,
     out = take 1 ls ++ rest ∧ orig ≡ₚ drop 1 ls ∧
     Forall2 (λ o l, o = l ∨ (no_flip = false ∧ o = flip l)) rest orig) ∧
  length out = length ls ∧ point_count out = point_count ls.
Proof.
  intros (rest & orig & -> & Horig & Hall & _)%linesort_structure.
  split; [by exists rest, orig|].
  assert (length rest = length orig) as Hlen by (by eapply Forall2_length).
  assert (point_count rest = point_count orig) as Hpts.
  { clear -Hall. induction Hall as [|o l rest orig Hol _ IH]; [done|].
    rewrite !point_count_cons, IH. f_equal.
    destruct Hol as [->|[_ ->]]; [done | apply flip_length]. }
  rewrite <- (take_drop 1 ls) at 2 4. unfold point_count in *.
  rewrite !length_app, !sum_list_with_app, Hlen, Hpts, <- Horig. done.
Qed.

Lemma linesort_rearranges_witness :
  (∃ rest orig,
     [seg 0 0 0 1; seg 0 (q 2 1) 0 (q 3 1); seg (q 5 1) (q 5 1) (q 5 1) (q 6 1)]
       = take 1 sort_scenario ++ rest ∧ orig ≡ₚ drop 1 sort_scenario ∧
     Forall2 (λ o l, o = l ∨ (false = false ∧ o = flip l)) rest orig) ∧
  length [seg 0 0 0 1; seg 0 (q 2 1) 0 (q 3 1); seg (q 5 1) (q 5 1) (q 5 1) (q 6 1)]
    = length sort_scenario ∧
  point_count [seg 0 0 0 1; seg 0 (q 2 1) 0 (q 3 1); seg (q 5 1) (q 5 1) (q 5 1) (q 6 1)]
    = point_count sort_scenario.
Proof. apply (linesort_rearranges sort_scenario _ false). compute_done. Defined.

(** X14.  The order of [linesort] is that of a greedy tour: every line after
    the first begins at least as near to the end of the line before it as
    any point by which it or a later line could be matched (its first
    point, or also its last point when flipping is allowed). *)
Theorem linesort_greedy (ls out : LineCollection) (no_flip : bool) (l0 : line)
    (e0 : complex) :
  linesort ls no_flip = Ok out → head ls = Some l0 → line_last l0 = Ok e0 →
  ∃ rest, out = l0 :: rest ∧ greedy (negb no_flip) e0 rest.
Proof.
  intros (rest & orig & -> & _ & _ & Hgreedy)%linesort_structure Hl0 He0.
  exists rest. split; [|by eapply Hgreedy].
  destruct ls; simpl in *; by simplify_eq.
Qed.

Lemma linesort_greedy_witness :
  ∃ rest, [seg 0 0 0 1; seg 0 (q 2 1) 0 (q 3 1); seg (q 5 1) (q 5 1) (q 5 1) (q 6 1)]
            = seg 0 0 0 1 :: rest ∧ greedy (negb true) (Complex 0 1) rest.
Proof.
  apply (linesort_greedy sort_scenario _ true (seg 0 0 0 1) (Complex 0 1)).
  - compute_done.
  - reflexivity.
  - reflexivity.
Defined.




(** ** The chains of linemerge without flipping *)

Lemma extend_turn_forward (fuel : nat) (s s' : LineIndex) (l : line) (tol : Qc)
    (t : turn) :
  synced s → reverse_index s = false →
  extend_turn fuel s l tol true = Ok (t, s') →
  synced s' ∧ reverse_index s' = false ∧
  match t with
  | Done l' =>
      l' = l ∧ pending s' = pending s ∧
      ∀ e l'' b, line_last l = Ok e → l'' ∈ pending s → line_first l'' = Ok b →
                 ¬ (dist2 b e < sq tol)%Qc
  | Extended l' =>
      ∃ nl e b, pending s ≡ₚ nl :: pending s' ∧ len s' < len s ∧
                line_last l = Ok e ∧ line_first nl = Ok b ∧
                (dist2 b e < sq tol)%Qc ∧ splice l nl = Ok l'
  end.
Proof.
  intros Hs Hrev H. unfold extend_turn in H.
  apply bind_Ok in H as (e & He & H).
  apply bind_Ok in H as ([[idx rev] s1] & Hfind & H).
  pose proof (find_nearest_within_Ok _ _ _ _ _ _ _ Hfind) as ([Hr1 _ Hle] & _ & Hnorev).
  rewrite (Hnorev Hrev) in *.
  apply within_answer in Hfind as (Hs1 & Hp1 & Hans); [|done].
  rewrite andb_false_r in H. simpl in H.
  destruct idx as [i|].
  - apply bind_Ok in H as ([l3 s3] & Hatt & H). simplify_eq.
    apply attach_Ok in Hatt as (nl & Ha & Hnl & -> & Hsplice).
    destruct Hans as (l0 & b & Hl0 & _ & Hb & Hd & _).
    assert (l0 = nl) as -> by congruence.
    split; [by apply set_unavailable_synced|]. split; [simpl; congruence|].
    exists nl, e, b. rewrite <- Hp1.
    split; [by apply remove_pending|].
    split; [rewrite (remove_len s1 i Ha) in Hle; lia|]. done.
  - simplify_eq. split; [done|]. split; [congruence|].
    split; [done|]. split; [done|].
    intros e' l'' b He' Hin Hb. assert (e' = e) as -> by congruence.
    rewrite <- Hp1 in Hin. apply pending_of_lookup in Hin as (j & Hj & Ha).
    apply (Hans j l'' b); [done | done | by left].
Qed.

Lemma extend_forward (fuel steps : nat) (s s' : LineIndex) (l l' : line) (tol : Qc)
    (m m' : nat) :
  synced s → reverse_index s = false →
  extend fuel steps s l tol true m = Ok (l', m', s') →
  synced s' ∧ reverse_index s' = false ∧ len s' ≤ len s ∧
  ∃ g, joined tol l g l' ∧ pending s ≡ₚ g ++ pending s' ∧ m' = m + length g ∧
       ∀ e l'' b, line_last l' = Ok e → l'' ∈ pending s' → line_first l'' = Ok b →
                  ¬ (dist2 b e < sq tol)%Qc.
Proof.
  revert s l m. induction steps as [|steps IH]; intros s l m Hs Hrev H; simpl in H;
    [done|].
  apply bind_Ok in H as ([t s1] & Ht & H).
  pose proof (extend_turn_Ok _ _ _ _ _ _ _ Ht) as Hspec.
  apply extend_turn_forward in Ht as (Hs1 & Hrev1 & Hturn); [|done..].
  destruct t as [l1|l1].
  - destruct Hturn as (nl & e & b & Hp & Hlen & He & Hb & Hd & Hsplice).
    apply IH in H as (Hs' & Hrev' & Hle & g & Hj & Hp' & -> & Hmax); [|done..].
    split; [done|]. split; [done|]. split; [lia|].
    exists (nl :: g). split; [by eapply joined_cons|].
    split; [by rewrite Hp, Hp'|]. split; [simpl; lia | done].
  - destruct Hturn as (-> & Hp & Hmax). simplify_eq.
    inversion Hspec as [? ? [_ _ Hle] _|]; subst.
    split; [done|]. split; [done|]. split; [done|].
    exists []. split; [constructor|]. split; [by rewrite Hp|].
    split; [simpl; lia|]. intros e l'' b He Hin. rewrite Hp in Hin. by eapply Hmax.
Qed.

Lemma merge_loop_forward_chains (fuel steps : nat) (s : LineIndex) (tol : Qc)
    (acc out : LineCollection) (m m' : nat) :
  synced s → reverse_index s = false →
  merge_loop fuel steps s tol true acc m = Ok (out, m') →
  ∃ chains, out = acc ++ chains ∧ merged tol (pending s) chains.
Proof.
  revert s acc m. induction steps as [|steps IH]; intros s acc m Hs Hrev H; simpl in H;
    [done|].
  destruct (0 <? len s) eqn:Hlen.
  2:{ apply Nat.ltb_ge in Hlen. simplify_eq. exists [].
      rewrite app_nil_r, len_zero_pending by lia. split; [done | constructor]. }
  apply bind_Ok in H as ([front s1] & Hpop & H).
  apply bind_Ok in H as (seed & ->%orelse_Ok & H).
  apply bind_Ok in H as ([[c m1] s2] & Hext & H).
  pose proof (proj1 (pop_front_takes s) _ _ Hpop) as (Hp & _ & _).
  apply pop_front_Some in Hpop as (i & _ & _ & ->).
  apply extend_forward in Hext as (Hs2 & Hrev2 & _ & g & Hj & Hp1 & _ & Hmax);
    [| by apply set_unavailable_synced | done].
  apply IH in H as (chains & -> & Hmerged); [|done..].
  exists (c :: chains). rewrite <- app_assoc. split; [done|].
  rewrite Hp. by eapply merged_chain.
Qed.

(** X9.  With flipping disabled, [linemerge] makes its chains as follows: the
    first line of the input is the seed of the first chain; a chain takes
    lines among those not yet taken, each beginning strictly within the
    tolerance of the end that the chain has then, and is output when no
    line that is left begins within the tolerance of its end; the lines
    that are left make the next chains in the same way.  So each line of
    the input goes into exactly one chain. *)
Theorem linemerge_forward_chains (ls out : LineCollection) (tol : Qc) :
  linemerge ls tol true = Ok out → merged tol ls out.
Proof.
  intros [m H]%linemerge_Ok. unfold linemerge_counted in H.
  destruct (length ls <? 2) eqn:Hlen.
  - simplify_eq. destruct out as [|l [|l' ls]]; [constructor | | done].
    apply (merged_chain tol l [] [] l [] []); [done | constructor | | constructor].
    intros e l'' b _ Hin. by inversion Hin.
  - apply bind_Ok in H as (s & Hs & H).
    pose proof (init_Ok _ _ _ Hs) as (Hr & Hp & _).
    apply make_index_synced in Hs.
    apply merge_loop_forward_chains in H as (chains & -> & Hmerged); [|done..].
    by rewrite Hp in Hmerged.
Qed.

Lemma linemerge_forward_chains_witness :
  merged scenario_tolerance scenario [scenario_merged].
Proof.
  apply (linemerge_forward_chains scenario [scenario_merged] scenario_tolerance).
  compute_done.
Defined.

(** X10.  With flipping disabled, when no line of the input begins strictly
    within the tolerance of the end of a line of the input, [linemerge]
    outputs the input as it is. *)
Theorem linemerge_nothing_to_merge (ls out : LineCollection) (tol : Qc) :
  (∀ a b e s0, a ∈ ls → b ∈ ls → line_last a = Ok e → line_first b = Ok s0 →
               ¬ (dist2 s0 e < sq tol)%Qc) →
  linemerge ls tol true = Ok out → out = ls.
Proof.
  intros Hfar [m H]%linemerge_Ok. unfold linemerge_counted in H.
  destruct (length ls <? 2); [by simplify_eq|].
  apply bind_Ok in H as (s & Hs & H).
  pose proof (init_Ok _ _ _ Hs) as (Hr & Hp & _).
  apply make_index_synced in Hs. simpl in Hr.
  assert (∀ steps s acc m0,
            synced s → reverse_index s = false → pending s ⊆ ls →
            merge_loop (fuel_for ls) steps s tol true acc m0 = Ok (out, m) →
            out = acc ++ pending s) as Hloop.
  2:{ eapply Hloop in H; [by rewrite Hp in H | done | done | by rewrite Hp]. }
  clear s Hs Hr Hp H. intros steps.
  induction steps as [|steps IH]; intros s acc m0 Hs Hrev Hsub H; simpl in H; [done|].
  destruct (0 <? len s) eqn:Hlen.
  2:{ apply Nat.ltb_ge in Hlen. simplify_eq.
      by rewrite len_zero_pending, app_nil_r by lia. }
  apply bind_Ok in H as ([front s1] & Hpop & H).
  apply bind_Ok in H as (seed & ->%orelse_Ok & H).
  apply bind_Ok in H as ([[c m1] s2] & Hext & H).
  pose proof (proj1 (pop_front_takes s) _ _ Hpop) as (Hp & _ & _).
  apply pop_front_Some in Hpop as (i & _ & _ & ->).
  assert (seed ∈ ls) as Hseed by (apply Hsub; rewrite Hp; constructor).
  assert (pending (set_unavailable s i) ⊆ ls) as Hsub1.
  { intros x Hx. apply Hsub. rewrite Hp. by constructor. }
  assert (c = seed ∧ pending s2 = pending (set_unavailable s i) ∧
          synced s2 ∧ reverse_index s2 = false) as (-> & Hp2 & Hs2 & Hrev2).
  { unfold fuel_for in Hext. replace (length ls + 2) with (S (length ls + 1)) in Hext by lia.
    cbn [extend] in Hext.
    apply bind_Ok in Hext as ([t s3] & Ht & Hext).
    apply extend_turn_forward in Ht as (Hs3 & Hrev3 & Hturn);
      [| by apply set_unavailable_synced | done].
    destruct t as [l1|l1].
    - destruct Hturn as (nl & e & b & Hperm & _ & He & Hb & Hd & _).
      exfalso. apply (Hfar seed nl e b); try done.
      apply Hsub1. rewrite Hperm. constructor.
    - destruct Hturn as (-> & Hp3 & _). by simplify_eq. }
  apply IH in H; [| done | done | by rewrite Hp2].
  by rewrite H, Hp, Hp2, <- app_assoc.
Qed.

Lemma linemerge_nothing_to_merge_witness :
  linemerge apart_half scenario_tolerance true = Ok apart_half ∧ apart_half = apart_half.
Proof.
  split; [compute_done|].
  apply (linemerge_nothing_to_merge apart_half apart_half scenario_tolerance).
  - intros a b e s0 Ha Hb He Hs0.
    assert (∀ x, x ∈ apart_half → x = seg 0 0 1 0 ∨ x = seg (q 3 2) 0 (q 5 2) 0) as Hin.
    { intros x [->|Hx]%elem_of_cons; [by left|].
      apply elem_of_cons in Hx as [->|Hx]; [by right | by inversion Hx]. }
    destruct (Hin a Ha) as [-> | ->], (Hin b Hb) as [-> | ->];
      injection He as <-; injection Hs0 as <-; compute_done.
  - compute_done.
Defined.

(** ** What a chain keeps of its lines *)

Lemma splice_endpoints (c l c' : line) :
  splice c l = Ok c' →
  (2 ≤ length c → head c' = head c) ∧ (2 ≤ length l → last c' = last l).
Proof.
  unfold splice. intros H.
  apply bind_Ok in H as (e & [c0 ->]%line_last_Ok & H).
  apply bind_Ok in H as (b & [l0 ->]%line_first_Ok & H).
  injection H as <-. rewrite length_app. simpl.
  replace (length c0 + 1 - 1) with (length c0) by lia.
  rewrite take_app_length, drop_0. split.
  - intros Hc. destruct c0 as [|a c0]; [simpl in Hc; lia | done].
  - intros Hl. destruct l0 as [|a l0]; [simpl in Hl; lia|].
    change (c0 ++ ?m :: a :: l0) with (c0 ++ [m] ++ a :: l0).
    change (b :: a :: l0) with ([b] ++ a :: l0).
    rewrite app_assoc, !last_app.
    destruct (last (a :: l0)) eqn:E; [done|]. by apply last_None in E.
Qed.

(** X11.  A chain made of lines of two points or more begins where its first
    line begins and ends where its last line ends, and has one point less
    than its lines together for each line spliced onto it. *)
Theorem joined_endpoints (tol : Qc) (c : line) (g : list line) (c' : line) :
  joined tol c g c' → Forall (λ l, 2 ≤ length l) (c :: g) →
  head c' = head c ∧
  (∀ l, last (c :: g) = Some l → last c' = last l) ∧
  length c' + length g = point_count (c :: g).
Proof.
  induction 1 as [c|c l g c1 c' e b He Hb Hd Hs Hj IH]; intros Hall.
  - split; [done|]. split; [by intros l [= <-]|].
    rewrite point_count_cons. simpl. lia.
  - apply Forall_cons in Hall as [Hc Hall].
    pose proof Hall as [Hl Hg]%Forall_cons.
    pose proof (splice_length _ _ _ Hs) as Hlen.
    pose proof (splice_endpoints _ _ _ Hs) as [Hhd Hlast].
    destruct IH as (IH1 & IH2 & IH3).
    { apply Forall_cons. split; [lia | done]. }
    split; [by rewrite IH1, Hhd|]. split.
    + intros l' Hl'. destruct g as [|l2 g].
      * simpl in Hl'. injection Hl' as <-. rewrite (IH2 c1 eq_refl). by apply Hlast.
      * apply IH2. done.
    + rewrite !point_count_cons in *. simpl. lia.
Qed.

Lemma joined_endpoints_witness :
  head scenario_merged = head (seg 0 0 1 0) ∧
  (∀ l, last scenario = Some l → last scenario_merged = last l) ∧
  length scenario_merged + length [seg (q 102 100) 0 (q 2 1) 0] = point_count scenario.
Proof.
  apply (joined_endpoints scenario_tolerance (seg 0 0 1 0) [seg (q 102 100) 0 (q 2 1) 0]).
  - eapply (joined_cons _ _ _ _ scenario_merged _ (Complex 1 0) (Complex (q 102 100) 0));
      [reflexivity | reflexivity | compute_done | compute_done | constructor].
  - repeat constructor.
Defined.

(** ** The index through any sequence of calls *)

Lemma synced_len (s : LineIndex) : synced s → len s = length (pending s).
Proof.
  intros Hs. unfold len, pending. symmetry. apply pending_of_length_flags.
  by rewrite (synced_available s Hs).
Qed.

Lemma perform_synced (fuel : nat) (s s' : LineIndex) (o : op) (a : option nat) :
  synced s → perform fuel s o = Ok (a, s') →
  synced s' ∧ reverse_index s' = reverse_index s ∧ pending s' ⊆ pending s.
Proof.
  intros Hs H. destruct o as [i| |p d|p]; simpl in H.
  - apply bind_Ok in H as ([[l|] s1] & Hpop & H); simplify_eq.
    + apply pop_Some in Hpop as (Ha & Hl & ->).
      split; [by apply set_unavailable_synced|]. split; [done|].
      intros x Hx. rewrite (remove_pending s i l Ha Hl). by constructor.
    + unfold pop in Hpop. apply bind_Ok in Hpop as (av & _ & Hpop).
      destruct av; simpl in Hpop; [|by simplify_eq].
      apply bind_Ok in Hpop as (l & _ & Hpop). by simplify_eq.
  - apply bind_Ok in H as ([[l|] s1] & Hpop & H); simplify_eq.
    + apply pop_front_Some in Hpop as (i & Ha & Hl & ->).
      split; [by apply set_unavailable_synced|]. split; [done|].
      intros x Hx. rewrite (remove_pending s i l Ha Hl). by constructor.
    + unfold pop_front in Hpop. destruct (len s =? 0); [by simplify_eq|].
      apply bind_Ok in Hpop as (l & _ & Hpop). by simplify_eq.
  - apply bind_Ok in H as ([[i rev] s1] & Hq & H). simplify_eq.
    pose proof (find_nearest_within_Ok _ _ _ _ _ _ _ Hq) as ([Hr Hp _] & _).
    apply within_answer in Hq as (Hs' & _); [|done].
    by rewrite Hp.
  - apply bind_Ok in H as ([[i rev] s1] & Hq & H). simplify_eq.
    pose proof (find_nearest_Ok _ _ _ _ _ _ Hq) as ([Hr Hp _] & _).
    apply nearest_answer in Hq as (Hs' & _); [|done].
    by rewrite Hp.
Qed.

(** X8.  Whatever calls are made on an index built over some lines, its trees
    keep one point per line, the first and the last of each; the lines
    still to be consumed are lines it was built over; and [len] is their
    number. *)
Theorem index_stays_synced (fuel : nat) (ls : list line) (rev : bool)
    (s0 s : LineIndex) (ops : list op) :
  LineIndex_init ls rev = Ok s0 → perform_all fuel s0 ops = Ok s →
  synced s ∧ reverse_index s = rev ∧ pending s ⊆ ls ∧ len s = length (pending s).
Proof.
  intros Hinit Hops.
  pose proof (init_Ok _ _ _ Hinit) as (Hr & Hp & _).
  apply make_index_synced in Hinit.
  assert (synced s ∧ reverse_index s = reverse_index s0 ∧ pending s ⊆ pending s0)
    as (Hs & Hr' & Hsub).
  { clear Hr Hp. revert s0 Hinit Hops.
    induction ops as [|o ops IH]; intros s0 Hs0 H; simpl in H.
    - by simplify_eq.
    - apply bind_Ok in H as ([a s1] & Ho & H).
      apply perform_synced in Ho as (Hs1 & Hr1 & Hsub1); [|done].
      destruct (IH _ Hs1 H) as (Hs & Hr & Hsub).
      split; [done|]. split; [congruence|]. by etrans. }
  split; [done|]. split; [congruence|]. split; [by rewrite <- Hp|].
  by apply synced_len.
Qed.

Lemma index_stays_synced_witness :
  synced (set_unavailable scenario_index 0) ∧
  reverse_index (set_unavailable scenario_index 0) = true ∧
  pending (set_unavailable scenario_index 0) ⊆ scenario ∧
  len (set_unavailable scenario_index 0) = length (pending (set_unavailable scenario_index 0)).
Proof.
  apply (index_stays_synced 2 scenario true scenario_index _ scenario_calls).
  - vm_compute. reflexivity.
  - vm_compute. reflexivity.
Defined.

(** ** The exceptions of linemerge *)

Lemma bind_value_error {A B : Type} (f : A → res B) (m : res A) :
  value_error_only m → (∀ a, m = Ok a → value_error_only (f a)) →
  value_error_only (m ≫= f).
Proof.
  intros Hm Hf. destruct m as [a| |]; simpl.
  - by apply Hf.
  - intros e' [= <-]. by apply Hm.
  - by intros e'.
Qed.

Lemma Ok_value_error {A : Type} (a : A) : value_error_only (Ok a).
Proof. by intros e. Qed.

Lemma mapM_total {A B : Type} (f : A → res B) (l : list A) :
  (∀ a, a ∈ l → ∃ b, f a = Ok b) → ∃ bs, mapM f l = Ok bs.
Proof.
  induction l as [|a l IH]; intros Hf; simpl; [eauto|].
  destruct (Hf a) as [b ->]; [constructor|]. simpl.
  destruct IH as [bs ->]; [|simpl; eauto].
  intros a' Ha'. apply Hf. by constructor.
Qed.

Lemma argmax_lt (l : list bool) : existsb id l = true → argmax l < length l.
Proof. intros H. by apply argmax_lookup, lookup_lt_Some in H. Qed.

Lemma within_in_index_total (s : LineIndex) (p : complex) (d : Qc) (t : KDTree) :
  length (kd_data t) = length (available s) →
  ∃ v, _find_nearest_within_in_index s p d t = Ok v.
Proof.
  intros Ht. unfold _find_nearest_within_in_index.
  destruct (mapM_total (λ i, orelse (available s !! i) IndexError)
              ((finite (KDTree_query t p 50 (Some d))).*2)) as [c Hc].
  { intros i (e & -> & He)%list_elem_of_fmap. apply finite_query_elem in He.
    destruct (lookup_lt_is_Some_2 (available s) e.2) as [a ->]; [lia|]. by exists a. }
  unfold take_available. rewrite Hc. simpl.
  destruct (_ && _); [eauto|].
  destruct (existsb id c) eqn:Hex; [|eauto].
  apply argmax_lt in Hex. apply mapM_length in Hc. rewrite length_fmap in Hc.
  destruct (lookup_lt_is_Some_2 (finite (KDTree_query t p 50 (Some d))) (argmax c))
    as [e ->]; [lia|]. simpl. eauto.
Qed.

Lemma synced_trees (s : LineIndex) :
  synced s →
  length (kd_data (index s)) = length (available s) ∧
  (reverse_index s = true →
   ∃ t, rindex s = Some t ∧ length (kd_data t) = length (available s)).
Proof.
  intros Hs. split.
  - by rewrite (synced_index_length s Hs), (synced_available s Hs).
  - intros Hrev. destruct (synced_rindex s Hs Hrev) as (t & Ht & Hends).
    exists t. split; [done|]. apply mapM_length in Hends.
    by rewrite Hends, (synced_available s Hs).
Qed.

Lemma reindex_value_error (s : LineIndex) : synced s → value_error_only (_reindex s).
Proof.
  intros Hs. unfold _reindex.
  rewrite select_total by (rewrite (synced_available s Hs); lia). simpl.
  set (ls := pending_of (lines s) (available s)).
  assert ([] ∉ ls) as Hne.
  { intros Hin%pending_of_elem. by eapply synced_lines_nonempty. }
  destruct ls as [|l ls'] eqn:Els.
  - intros e. destruct (reverse_index s); simpl; by intros [= <-].
  - destruct (proj2 (proj2 (init_outcomes (l :: ls') (reverse_index s))))
      as (s' & Hs' & _); [done | done |].
    unfold LineIndex_init in Hs'. rewrite Hs'. apply Ok_value_error.
Qed.

Lemma within_loop_value_error (fuel : nat) (s : LineIndex) (p : complex) (d : Qc) :
  synced s → value_error_only (find_nearest_within_loop fuel s p d).
Proof.
  revert s. induction fuel as [|fuel IH]; intros s Hs; simpl; [by intros e|].
  destruct (synced_trees s Hs) as [Hi Hr].
  assert (value_error_only (s' ← _reindex s; find_nearest_within_loop fuel s' p d))
    as Hre.
  { apply bind_value_error; [by apply reindex_value_error|].
    intros s' Hs'%reindex_synced. by apply IH. }
  destruct (within_in_index_total s p d (index s) Hi) as [[[r1 i1] d1] ->]. simpl.
  destruct r1; [done|].
  destruct (reverse_index s); [|apply Ok_value_error].
  destruct (Hr eq_refl) as (t & -> & Ht). simpl.
  destruct (within_in_index_total s p d t Ht) as [[[r2 i2] d2] ->]. simpl.
  destruct r2; [done | apply Ok_value_error].
Qed.

Lemma find_nearest_within_value_error (fuel : nat) (s : LineIndex) (p : complex)
    (d : Qc) :
  synced s → value_error_only (find_nearest_within fuel s p d).
Proof.
  intros Hs. unfold find_nearest_within.
  apply bind_value_error; [by apply within_loop_value_error|].
  intros [[[[i1 d1] i2] d2] s1] _.
  destruct (reverse_index s1); [|apply Ok_value_error].
  destruct i1, i2; try case_bool_decide; apply Ok_value_error.
Qed.

Lemma splice_total (c l : line) :
  c ≠ [] → l ≠ [] → ∃ c', splice c l = Ok c' ∧ c' ≠ [].
Proof.
  intros Hc Hl. unfold splice.
  destruct (line_last_nonempty c Hc) as [e ->].
  destruct (line_first_nonempty l Hl) as [b ->]. simpl.
  eexists. split; [done|]. intros H%(f_equal length).
  rewrite !length_app in H. simpl in H. lia.
Qed.

Lemma attach_total (s : LineIndex) (l : line) (i : nat) (rev : bool) :
  synced s → available s !! i = Some true → l ≠ [] →
  ∃ l' s', attach s l i rev = Ok (l', s') ∧ synced s' ∧ l' ≠ [].
Proof.
  intros Hs Ha Hl. unfold attach.
  destruct (lookup_lt_is_Some_2 (lines s) i) as [nl Hnl].
  { apply lookup_lt_Some in Ha. by rewrite <- (synced_available s Hs). }
  destruct (pop_takes s i nl Ha Hnl) as (-> & _). simpl.
  assert (nl ≠ []) as Hne.
  { eapply synced_lines_nonempty; [done|]. by eapply list_elem_of_lookup_2. }
  destruct (splice_total l (if rev then flip nl else nl)) as (l' & -> & Hl'); [done | |].
  { destruct rev; [by apply flip_nonempty | done]. }
  simpl. exists l', (set_unavailable s i).
  split; [done|]. split; [by apply set_unavailable_synced | done].
Qed.

Lemma extend_turn_value_error (fuel : nat) (s : LineIndex) (l : line) (tol : Qc)
    (no_flip : bool) :
  synced s → l ≠ [] →
  value_error_only (extend_turn fuel s l tol no_flip) ∧
  ∀ t s', extend_turn fuel s l tol no_flip = Ok (t, s') →
          synced s' ∧ match t with Extended l' | Done l' => l' ≠ [] end.
Proof.
  intros Hs Hl. unfold extend_turn.
  destruct (line_last_nonempty l Hl) as [e ->].
  destruct (line_first_nonempty l Hl) as [b Hb]. simpl.
  assert (∀ s1 l2 idx rev, synced s1 → l2 ≠ [] →
            (∀ i, idx = Some i → available s1 !! i = Some true) →
            value_error_only
              (match idx with
               | None => Ok (Done l2, s1)
               | Some i => '(l3, s3) ← attach s1 l2 i rev; Ok (Extended l3, s3)
               end) ∧
            ∀ t s', match idx with
                    | None => Ok (Done l2, s1)
                    | Some i => '(l3, s3) ← attach s1 l2 i rev; Ok (Extended l3, s3)
                    end = Ok (t, s') →
                    synced s' ∧ match t with Extended l' | Done l' => l' ≠ [] end)
    as Hend.
  { intros s1 l2 [i|] rev Hs1 Hl2 Ha.
    - destruct (attach_total s1 l2 i rev Hs1 (Ha i eq_refl) Hl2)
        as (l' & s' & -> & Hs' & Hl'). simpl.
      split; [apply Ok_value_error|]. intros t s'' [= <- <-]. done.
    - split; [apply Ok_value_error|]. intros t s'' [= <- <-]. done. }
  destruct (find_nearest_within fuel s e tol) as [[[idx rev] s1]|e1|] eqn:H1; simpl.
  2:{ split; [|done]. intros e' [= <-].
      by apply (find_nearest_within_value_error fuel s e tol Hs). }
  2:{ split; [by intros e'|done]. }
  pose proof (find_nearest_within_Ok _ _ _ _ _ _ _ H1) as (_ & Ha1 & _).
  apply within_answer in H1 as (Hs1 & _); [|done].
  destruct idx as [i|]; simpl.
  { by apply (Hend s1 l (Some i) rev). }
  destruct no_flip; simpl.
  { by apply (Hend s1 l None rev). }
  rewrite Hb. simpl.
  destruct (find_nearest_within fuel s1 b tol) as [[[idx2 rev2] s2]|e2|] eqn:H2; simpl.
  2:{ split; [|done]. intros e' [= <-].
      by apply (find_nearest_within_value_error fuel s1 b tol Hs1). }
  2:{ split; [by intros e'|done]. }
  pose proof (find_nearest_within_Ok _ _ _ _ _ _ _ H2) as (_ & Ha2 & _).
  apply within_answer in H2 as (Hs2 & _); [|done].
  apply (Hend s2 (flip l) idx2 rev2); [done | by apply flip_nonempty | done].
Qed.

Lemma extend_value_error (fuel steps : nat) (s : LineIndex) (l : line) (tol : Qc)
    (no_flip : bool) (m : nat) :
  synced s → l ≠ [] →
  value_error_only (extend fuel steps s l tol no_flip m) ∧
  ∀ l' m' s', extend fuel steps s l tol no_flip m = Ok (l', m', s') → synced s'.
Proof.
  revert s l m. induction steps as [|steps IH]; intros s l m Hs Hl; simpl.
  { split; [by intros e | done]. }
  destruct (extend_turn_value_error fuel s l tol no_flip Hs Hl) as [Hve Hok].
  destruct (extend_turn fuel s l tol no_flip) as [[t s1]|e1|]; simpl.
  - destruct (Hok t s1 eq_refl) as [Hs1 Hl1]. destruct t as [l1|l1].
    + by apply IH.
    + split; [apply Ok_value_error|]. by intros l' m' s' [= _ _ <-].
  - split; [|done]. intros e' [= <-]. by apply Hve.
  - split; [by intros e' | done].
Qed.

Lemma merge_loop_value_error (fuel steps : nat) (s : LineIndex) (tol : Qc)
    (no_flip : bool) (acc : LineCollection) (m : nat) :
  synced s → value_error_only (merge_loop fuel steps s tol no_flip acc m).
Proof.
  revert s acc m. induction steps as [|steps IH]; intros s acc m Hs; simpl.
  { by intros e. }
  destruct (0 <? len s) eqn:Hlen; [|apply Ok_value_error].
  apply Nat.ltb_lt in Hlen.
  destruct (proj2 (pop_front_takes s)) as (seed & s1 & Hpop);
    [rewrite (synced_available s Hs); lia | done |].
  rewrite Hpop. simpl.
  apply pop_front_Some in Hpop as (i & _ & Hseed & ->).
  assert (seed ≠ []) as Hne.
  { eapply synced_lines_nonempty; [done|]. by eapply list_elem_of_lookup_2. }
  destruct (extend_value_error fuel fuel (set_unavailable s i) seed tol no_flip m)
    as [Hve Hok]; [by apply set_unavailable_synced | done |].
  apply bind_value_error; [done|].
  intros [[l' m'] s2] Hext. apply IH. by eapply Hok.
Qed.

(** X12.  On lines that all have a point, [linemerge] raises nothing but the
    [ValueError] of a tree built over no point. *)
Theorem linemerge_raises_only_ValueError (ls : LineCollection) (tol : Qc)
    (no_flip : bool) (e : exn) :
  [] ∉ ls → linemerge ls tol no_flip = Raise e → e = ValueError.
Proof.
  intros Hne H. unfold linemerge in H.
  assert (value_error_only (linemerge_counted (fuel_for ls) ls tol no_flip)) as Hve.
  { unfold linemerge_counted. destruct (length ls <? 2) eqn:Hlen; [apply Ok_value_error|].
    destruct (proj2 (proj2 (init_outcomes ls (negb no_flip))))
      as (s & -> & _ & _ & _ & _ & _ & Hs); [by destruct ls | done |].
    simpl. by apply merge_loop_value_error. }
  destruct (linemerge_counted _ _ _ _) as [[out m]|e'|]; simpl in H; [done | | done].
  injection H as <-. by apply Hve.
Qed.

Lemma linemerge_raises_only_ValueError_witness : ValueError = ValueError.
Proof.
  apply (linemerge_raises_only_ValueError
           (replicate 50 [Complex 0 0; Complex 1 0; Complex 0 0]) scenario_tolerance true).
  - intros Hin. apply elem_of_replicate in Hin as [Hin _]. done.
  - vm_compute. reflexivity.
Defined.

(** ** linemerge on fewer lines than a query samples *)

Lemma within_in_index_small (s : LineIndex) (p : complex) (d : Qc) (t : KDTree) :
  length (kd_data t) = length (available s) → length (kd_data t) < 50 →
  ∃ idx di, _find_nearest_within_in_index s p d t = Ok (false, idx, di).
Proof.
  intros Ht Hsmall.
  destruct (within_in_index_total s p d t Ht) as [[[r idx] di] H].
  destruct r; [|eauto]. exfalso.
  unfold _find_nearest_within_in_index in H.
  apply bind_Ok in H as (c & Hc & H).
  destruct (forallb id _) eqn:Hall; simpl in H.
  - apply finite_length in Hall. rewrite query_length, finite_query in Hall.
    assert (length (hits t p (Some d)) ≤ length (kd_data t)) as Hhits.
    { rewrite hits_perm. etrans; [apply length_filter|]. by rewrite length_imap. }
    rewrite length_take in Hall. lia.
  - destruct (existsb id c); [|by simplify_eq].
    apply bind_Ok in H as (e & _ & H). by simplify_eq.
Qed.

(** On an index of fewer than fifty lines a bounded query rebuilds
    nothing. *)
Lemma find_nearest_within_small (fuel : nat) (s : LineIndex) (p : complex) (d : Qc) :
  synced s → length (lines s) < 50 →
  ∃ idx rev, find_nearest_within (S fuel) s p d = Ok (idx, rev, s).
Proof.
  intros Hs Hsmall. destruct (synced_trees s Hs) as [Hi Hr].
  rewrite <- (synced_available s Hs) in Hsmall.
  unfold find_nearest_within. cbn [find_nearest_within_loop].
  destruct (within_in_index_small s p d (index s) Hi) as (i1 & d1 & ->); [lia|].
  simpl. destruct (reverse_index s) eqn:Hrev.
  - destruct (Hr eq_refl) as (t & -> & Ht). simpl.
    destruct (within_in_index_small s p d t Ht) as (i2 & d2 & ->); [lia|].
    simpl. rewrite Hrev. destruct i1, i2; try case_bool_decide; eauto.
  - simpl. rewrite Hrev. eauto.
Qed.

Lemma extend_turn_small (fuel : nat) (s : LineIndex) (l : line) (tol : Qc)
    (no_flip : bool) :
  synced s → length (lines s) < 50 → l ≠ [] →
  ∃ t s', extend_turn (S fuel) s l tol no_flip = Ok (t, s') ∧
          synced s' ∧ lines s' = lines s ∧
          match t with Extended l' | Done l' => l' ≠ [] end.
Proof.
  intros Hs Hsmall Hl.
  destruct (extend_turn_value_error (S fuel) s l tol no_flip Hs Hl) as [_ Hok].
  assert (∃ t s', extend_turn (S fuel) s l tol no_flip = Ok (t, s') ∧ lines s' = lines s)
    as (t & s' & H & Hlines).
  { unfold extend_turn.
    destruct (line_last_nonempty l Hl) as [e ->].
    destruct (line_first_nonempty l Hl) as [b Hb]. simpl.
    destruct (find_nearest_within_small fuel s e tol Hs Hsmall) as (idx & rev & H1).
    rewrite H1. simpl.
    pose proof (find_nearest_within_Ok _ _ _ _ _ _ _ H1) as (_ & Ha1 & _).
    assert (∀ l2 idx rev, l2 ≠ [] →
              (∀ i, idx = Some i → available s !! i = Some true) →
              ∃ t s', match idx with
                      | None => Ok (Done l2, s)
                      | Some i => '(l3, s3) ← attach s l2 i rev; Ok (Extended l3, s3)
                      end = Ok (t, s') ∧ lines s' = lines s) as Hend.
    { intros l2 [i|] rev' Hl2 Ha; [|eauto].
      destruct (attach_total s l2 i rev' Hs (Ha i eq_refl) Hl2) as (l' & s' & Hatt & _).
      rewrite Hatt. simpl. apply attach_Ok in Hatt as (_ & _ & _ & -> & _). eauto. }
    destruct idx as [i|]; simpl.
    { by apply (Hend l (Some i) rev). }
    destruct no_flip; simpl.
    { by apply (Hend l None rev). }
    rewrite Hb. simpl.
    destruct (find_nearest_within_small fuel s b tol Hs Hsmall) as (idx2 & rev2 & H2).
    rewrite H2. simpl.
    pose proof (find_nearest_within_Ok _ _ _ _ _ _ _ H2) as (_ & Ha2 & _).
    apply (Hend (flip l) idx2 rev2); [by apply flip_nonempty | done]. }
  exists t, s'. destruct (Hok t s' H) as [Hs' Hne]. done.
Qed.

Lemma extend_small (fuel steps : nat) (s : LineIndex) (l : line) (tol : Qc)
    (no_flip : bool) (m : nat) :
  synced s → length (lines s) < 50 → l ≠ [] → len s < steps →
  ∃ l' m' s', extend (S fuel) steps s l tol no_flip m = Ok (l', m', s') ∧
              synced s' ∧ lines s' = lines s ∧ len s' ≤ len s.
Proof.
  revert s l m. induction steps as [|steps IH]; intros s l m Hs Hsmall Hl Hlen; [lia|].
  cbn [extend].
  destruct (extend_turn_small fuel s l tol no_flip Hs Hsmall Hl)
    as (t & s1 & Ht & Hs1 & Hlines & Hne).
  rewrite Ht. simpl. apply extend_turn_Ok in Ht.
  destruct t as [l1|l1].
  - inversion Ht; subst.
    destruct (IH s1 l1 (S m)) as (l' & m' & s' & -> & Hs' & Hlines' & Hle);
      [done | by rewrite Hlines | done | lia |].
    exists l', m', s'. split; [done|]. split; [done|].
    split; [congruence | lia].
  - inversion Ht as [? ? [_ _ Hle] _|]; subst. eauto 10.
Qed.

Lemma merge_loop_small (fuel steps : nat) (s : LineIndex) (tol : Qc) (no_flip : bool)
    (acc : LineCollection) (m : nat) :
  synced s → length (lines s) < 50 → len s < steps → len s ≤ S fuel →
  ∃ r, merge_loop (S fuel) steps s tol no_flip acc m = Ok r.
Proof.
  revert s acc m. induction steps as [|steps IH]; intros s acc m Hs Hsmall Hlen Hf; [lia|].
  cbn [merge_loop]. destruct (0 <? len s) eqn:Hpos; [|eauto].
  apply Nat.ltb_lt in Hpos.
  destruct (proj2 (pop_front_takes s)) as (seed & s1 & Hpop);
    [rewrite (synced_available s Hs); lia | done |].
  rewrite Hpop. cbn -[extend merge_loop].
  apply pop_front_Some in Hpop as (i & Ha & Hseed & ->).
  assert (seed ≠ []) as Hne.
  { eapply synced_lines_nonempty; [done|]. by eapply list_elem_of_lookup_2. }
  pose proof (remove_len s i Ha) as Hrem.
  destruct (extend_small fuel (S fuel) (set_unavailable s i) seed tol no_flip m)
    as (l' & m' & s2 & -> & Hs2 & Hlines & Hle);
    [by apply set_unavailable_synced | done | done | lia |].
  cbn -[extend merge_loop]. apply IH; [done | by rewrite Hlines | lia | lia].
Qed.

(** X22.  On fewer than fifty lines that all have a point, [linemerge]
    answers a collection: no query asks for a rebuild, and nothing is
    raised. *)
Theorem linemerge_small_total (ls : LineCollection) (tol : Qc) (no_flip : bool) :
  length ls < 50 → [] ∉ ls → ∃ out, linemerge ls tol no_flip = Ok out.
Proof.
  intros Hsmall Hne. unfold linemerge, linemerge_counted.
  destruct (length ls <? 2) eqn:Hlen; [simpl; eauto|].
  destruct (proj2 (proj2 (init_outcomes ls (negb no_flip))))
    as (s & -> & Hlines & _ & _ & Hlen' & _ & Hs); [by destruct ls | done |].
  unfold mbind, res_bind, res_bind_def, fuel_for.
  replace (length ls + 2) with (S (length ls + 1)) by lia.
  destruct (merge_loop_small (length ls + 1) (S (length ls + 1)) s tol no_flip [] 0)
    as [[out m] ->]; [done | by rewrite Hlines | lia | lia |].
  simpl. eauto.
Qed.

Lemma linemerge_small_total_witness :
  ∃ out, linemerge scenario scenario_tolerance false = Ok out.
Proof.
  apply (linemerge_small_total scenario scenario_tolerance false).
  - simpl. lia.
  - compute_done.
Defined.
